(** * giri::FileSystem (FileSystem.h): command execution and PATH lookup

    A shallow embedding of [ExecuteSync], [ExecuteAsync] and
    [FindExecutableInPath].  The C library calls the header relies on
    ([popen], [fgets], [std::getline], [std::async], [std::future]) are
    modelled by what the C and C++ standards say they do. *)

From Equations Require Import Equations.
From Equations.Prop Require Import Logic.
From Stdlib Require Import Strings.Byte Strings.Ascii Strings.String.
From stdpp Require Import gmap strings list fin_maps.

#[global] Instance byte_eq_decision : EqDecision byte := Byte.byte_eq_dec.

(** ** The stdio layer: [fgets] and C strings *)

Module Stdio.

Definition NUL : byte := x00.
Definition newline : byte := x0a.

(** The transfer loop of [fgets]: at most [room] characters leave the
    stream, and the newline, when met, is the last one taken. *)
Fixpoint read_line (room : nat) (stream : list byte) : list byte * list byte :=
  match room, stream with
  | 0, _ => ([], stream)
  | S _, [] => ([], [])
  | S room', c :: stream' =>
      if decide (c = newline) then ([c], stream')
      else let '(line, rest) := read_line room' stream' in (c :: line, rest)
  end.

(** [fgets(buf, n, fp)]: [None] is the null pointer returned at end of
    file when nothing was read; otherwise the characters stored in [buf],
    terminator included, and what is left on the stream. *)
Definition fgets (n : nat) (stream : list byte) : option (list byte * list byte) :=
  match stream with
  | [] => None
  | _ :: _ =>
      let '(line, rest) := read_line (n - 1) stream in
      Some (line ++ [NUL], rest)
  end.

(** What [ostr << buffer.data()] and [result += buffer.data()] see of a
    buffer, handed over as a plain character pointer: the characters
    before the first NUL. *)
Fixpoint c_str (buf : list byte) : list byte :=
  match buf with
  | [] => []
  | c :: buf' => if decide (c = NUL) then [] else c :: c_str buf'
  end.

(** A read from a stream that is not exhausted (and a buffer with room
    for one character) shortens the stream: this is what makes the
    loops around [fgets] terminate. *)
Lemma read_line_rest room stream :
  length (read_line room stream).2 ≤ length stream.
Proof.
  revert stream; induction room as [|room IH]; intros [|c stream]; cbn; try lia.
  destruct (decide (c = newline)); cbn; [lia|].
  specialize (IH stream). destruct (read_line room stream); cbn in *; lia.
Qed.

Lemma fgets_progress n stream buffer rest :
  2 ≤ n → fgets n stream = Some (buffer, rest) → length rest < length stream.
Proof.
  intros Hn. destruct stream as [|c stream]; [done|].
  unfold fgets. pose proof (read_line_rest (n - 1) (c :: stream)) as Hle.
  destruct n as [|[|n]]; [lia..|].
  destruct (read_line (S (S n) - 1) (c :: stream)) as [line rest'] eqn:Hline.
  intros ?; simplify_eq. revert Hline Hle. cbn.
  destruct (decide (c = newline)).
  - intros ?; simplify_eq. cbn. lia.
  - pose proof (read_line_rest n stream) as Hle.
    destruct (read_line n stream); intros ?; simplify_eq. cbn in *. lia.
Qed.

End Stdio.

Import Stdio.

(** [std::array<char, 128> buffer] *)
Definition buffer_size : nat := 128.

(** ** Exceptions and outcomes *)

Inductive exn : Type :=
| FileSystemException (msg : string)    (* giri::FileSystem::FileSystemException *)
| filesystem_error (what : string).     (* std::filesystem::filesystem_error *)

#[global] Instance exn_eq_decision : EqDecision exn.
Proof. solve_decision. Defined.

(** How a call ends: it returns a value or an exception leaves it. *)
Inductive result (A : Type) : Type :=
| Returned (a : A)
| Thrown (e : exn).
Arguments Returned {A} a.
Arguments Thrown {A} e.

(** The terminal states of the shared state of a [std::future<void>]. *)
Inductive outcome : Type :=
| Completed
| Failed (e : exn).

#[global] Instance outcome_eq_decision : EqDecision outcome.
Proof. solve_decision. Defined.

Section Exec.

(** The spawn primitive ([popen] / [_popen] in mode "r"): [None] is the
    null [FILE*]; otherwise the bytes the child writes to its standard
    output before it terminates. *)
Variable popen : string → option (list byte).

Definition popen_failed : exn := FileSystemException "popen() failed!".

(** *** ExecuteSync *)

(** [while (fgets(buffer.data(), buffer.size(), pipe.get()) != nullptr)
      result += buffer.data();] *)
Equations? sync_loop (pipe : list byte) (result : list byte) : list byte
  by wf (length pipe) lt :=
  sync_loop pipe result with inspect (fgets buffer_size pipe) => {
    | exist _ None Hread => result;
    | exist _ (Some (buffer, pipe')) Hread => sync_loop pipe' (result ++ c_str buffer) }.
Proof. apply (fgets_progress buffer_size pipe buffer); [cbv; lia | done]. Qed.

Definition ExecuteSync (cmd : string) : result (list byte) :=
  match popen cmd with
  | None => Thrown popen_failed
  | Some pipe => Returned (sync_loop pipe [])
  end.

(** *** The objects ExecuteAsync works on

    The lambda handed to [std::async] captures with [[&]]: it holds the
    caller's [std::string] and [std::ostream] by reference.  Both live
    in a store the caller owns; an object the caller has destroyed is
    absent from it, and using it through a reference has no defined
    behaviour ([None] below). *)

(** Where the background thread stands in the lambda's body. *)
Inductive pc : Type :=
| Spawning                      (* about to call [popen(cmd.c_str(), "r")] *)
| Reading (pipe : list byte)    (* in the [fgets] loop; what the pipe still holds *)
| Done (o : outcome).           (* returned, or left by the exception *)

Record task : Type := Task {
  cmd_ref : nat;     (* [const std::string& cmd], captured by reference *)
  ostr_ref : nat;    (* [std::ostream& ostr], captured by reference *)
  state : pc
}.

Record world : Type := World {
  strings : gmap nat string;       (* the callers' command strings *)
  sinks : gmap nat (list byte);    (* what each output stream has received *)
  tasks : list task;               (* the threads started by [std::async] *)
  futures : list (option nat);     (* the [std::future<void>] objects *)
  spawned : list string            (* the commands handed to [popen] so far *)
}.

(** A [std::future<void>] object refers to the shared state of one
    thread, or to none; [valid()] tells which. *)
Definition valid (hdl : nat) (w : world) : bool :=
  match futures w !! hdl with
  | Some (Some _) => true
  | _ => false
  end.

Definition set_pc (s : pc) (t : task) : task := Task (cmd_ref t) (ostr_ref t) s.

Definition set_state (tid : nat) (s : pc) (w : world) : world :=
  World (strings w) (sinks w) (alter (set_pc s) tid (tasks w)) (futures w) (spawned w).

Definition log_spawn (c : string) (w : world) : world :=
  World (strings w) (sinks w) (tasks w) (futures w) (spawned w ++ [c]).

(** [ostr << s] *)
Definition write (sink : nat) (s : list byte) (w : world) : option world :=
  content ← sinks w !! sink;
  Some (World (strings w) (<[sink := content ++ s]> (sinks w)) (tasks w)
              (futures w) (spawned w)).

(** *** ExecuteAsync *)

(** One step of the lambda's body, run by thread [tid]. *)
Definition task_step (tid : nat) (w : world) : option world :=
  t ← tasks w !! tid;
  match state t with
  | Spawning =>
      cmd ← strings w !! cmd_ref t;
      let w := log_spawn cmd w in
      match popen cmd with
      | None => Some (set_state tid (Done (Failed popen_failed)) w)
      | Some pipe => Some (set_state tid (Reading pipe) w)
      end
  | Reading pipe =>
      match fgets buffer_size pipe with
      | None => Some (set_state tid (Done Completed) w)
      | Some (buffer, pipe') =>
          w ← write (ostr_ref t) (c_str buffer) w;
          Some (set_state tid (Reading pipe') w)
      end
  | Done _ => Some w
  end.

(** [std::async(std::launch::async, [&] { ... })] starts the thread and
    hands back the future; nothing of the lambda has run when
    [ExecuteAsync] returns [hdl]. *)
Definition ExecuteAsync (cmd ostr : nat) (w : world) : result nat * world :=
  (Returned (length (futures w)),
   World (strings w) (sinks w)
         (tasks w ++ [Task cmd ostr Spawning])
         (futures w ++ [Some (length (tasks w))])
         (spawned w)).

(** The scheduler: the threads named in [sched] take one step each, in
    that order. *)
Fixpoint run_schedule (sched : list nat) (w : world) : option world :=
  match sched with
  | [] => Some w
  | tid :: sched' => w ← task_step tid w; run_schedule sched' w
  end.

(** A bound on the steps thread [tid] still has to take. *)
Definition steps_left (tid : nat) (w : world) : nat :=
  match tasks w !! tid with
  | None => 0
  | Some t =>
      match state t with
      | Spawning =>
          match strings w !! cmd_ref t ≫= popen with
          | Some pipe => 2 + length pipe
          | None => 1
          end
      | Reading pipe => 1 + length pipe
      | Done _ => 0
      end
  end.

(** Blocking until thread [tid] has finished. *)
Definition join (tid : nat) (w : world) : option world :=
  run_schedule (replicate (steps_left tid w) tid) w.

Definition release (hdl : nat) (w : world) : world :=
  World (strings w) (sinks w) (tasks w) (<[hdl := None]> (futures w)) (spawned w).

Definition rethrow (o : outcome) : result unit :=
  match o with
  | Completed => Returned ()
  | Failed e => Thrown e
  end.

(** [hdl.get()]: waits for the thread, hands over what it ended with
    (rethrowing a stored exception) and releases the shared state.  On a
    future without shared state the call has no defined behaviour. *)
Definition get (hdl : nat) (w : world) : option (result unit * world) :=
  st ← futures w !! hdl;
  tid ← st;
  w ← join tid w;
  t ← tasks w !! tid;
  match state t with
  | Done o => Some (rethrow o, release hdl w)
  | _ => None
  end.

(** What the caller may do to its own string once [ExecuteAsync] has
    returned. *)
Definition assign (r : nat) (c : string) (w : world) : world :=
  World (<[r := c]> (strings w)) (sinks w) (tasks w) (futures w) (spawned w).

Definition destroy (r : nat) (w : world) : world :=
  World (delete r (strings w)) (sinks w) (tasks w) (futures w) (spawned w).

(** *** Bookkeeping for the properties below *)

(** The world [ExecuteAsync] leaves behind, and the future it returns. *)
Definition launched (cmd ostr : nat) (w : world) : world :=
  (ExecuteAsync cmd ostr w).2.

(** The world in which that thread has ended with [o]. *)
Definition ended (cmd ostr : nat) (o : outcome) (c : string) (w : world) : world :=
  World (strings w) (sinks w)
        (tasks w ++ [Task cmd ostr (Done o)])
        (futures w ++ [Some (length (tasks w))])
        (spawned w ++ [c]).

(** What a thread is still going to hand on, and how it is going to end. *)
Definition pending (t : task) (w : world) : option (outcome * list byte) :=
  match state t with
  | Spawning =>
      cmd ← strings w !! cmd_ref t;
      Some (match popen cmd with
            | None => (Failed popen_failed, [])
            | Some pipe => (Completed, sync_loop pipe [])
            end)
  | Reading pipe => Some (Completed, sync_loop pipe [])
  | Done o => Some (o, [])
  end.

(** Thread [tid] writes to [ostr], and is on its way to end with [o]
    and to leave [total] in that sink. *)
Definition runs (tid ostr : nat) (o : outcome) (total : list byte) (w : world) : Prop :=
  ∃ t content out,
    tasks w !! tid = Some t ∧ ostr_ref t = ostr ∧
    sinks w !! ostr = Some content ∧
    pending t w = Some (o, out) ∧ content ++ out = total.

(** What a step of thread [tid], writing to [ostr], leaves alone. *)
Definition frame (tid ostr : nat) (w w' : world) : Prop :=
  strings w' = strings w ∧
  (∀ j, j ≠ tid → tasks w' !! j = tasks w !! j) ∧
  (∀ s, s ≠ ostr → sinks w' !! s = sinks w !! s).

(** What one call, made alone, ends with and leaves in its sink. *)
Definition alone (c : string) (content : list byte) : outcome * list byte :=
  match popen c with
  | None => (Failed popen_failed, content)
  | Some pipe => (Completed, content ++ sync_loop pipe [])
  end.

End Exec.

(** ** FindExecutableInPath *)

Inductive platform : Type := Windows | Posix.

(** [#if defined(_WIN32) char delim = ';'; #else char delim = ':'; #endif] *)
Definition delim (p : platform) : ascii :=
  match p with
  | Windows => ";"%char
  | Posix => ":"%char
  end.

Module Stream.

Local Open Scope string_scope.

(** The characters up to the delimiter, which is taken off the stream
    and thrown away, or up to the end of the stream. *)
Fixpoint read_token (delim : ascii) (s : string) : string * string :=
  match s with
  | "" => ("", "")
  | String c s' =>
      if decide (c = delim) then ("", s')
      else let '(token, rest) := read_token delim s' in (String c token, rest)
  end.

(** [std::getline(tokenStream, token, delim)]: fails ([None]) when the
    stream has nothing left to extract; otherwise the token and the rest
    of the stream. *)
Definition getline (delim : ascii) (s : string) : option (string * string) :=
  match s with
  | "" => None
  | String _ _ => Some (read_token delim s)
  end.

Lemma read_token_rest delim s :
  (String.length (read_token delim s).2 ≤ String.length s)%nat.
Proof.
  induction s as [|c s IH]; cbn; [lia|].
  destruct (decide (c = delim)); cbn; [lia|].
  destruct (read_token delim s); cbn in *; lia.
Qed.

Lemma getline_progress delim s token rest :
  getline delim s = Some (token, rest) → (String.length rest < String.length s)%nat.
Proof.
  destruct s as [|c s]; [done|]. cbn.
  pose proof (read_token_rest delim s) as Hle.
  destruct (decide (c = delim)); [intros ?; simplify_eq; cbn; lia|].
  destruct (read_token delim s); intros ?; simplify_eq. cbn in *; lia.
Qed.

End Stream.

Import Stream.

Section Find.

Local Open Scope string_scope.

(** [std::filesystem::exists] in the overload that throws: it answers
    whether the path names a file, or [std::filesystem::filesystem_error]
    leaves it when the status of the path cannot be read (a name that is
    too long, a directory that may not be searched).  Then the two
    operations of [std::filesystem::path] the function uses; a path is the
    string it was built from. *)
Variable file_exists : string → result bool.
Variable append : string → string → string.
Variable replace_extension : string → string → string.

Variable os : platform.
Variable executable : string.

(** [while (std::getline(tokenStream, token, delim)) { ... } return "";] *)
Equations? scan (tokenStream : string) : result string
  by wf (String.length tokenStream) lt :=
  scan tokenStream with inspect (getline (delim os) tokenStream) => {
    | exist _ None Hread => Returned "";
    | exist _ (Some (token, tokenStream')) Hread =>
        let exec := append token executable in
        match file_exists exec with
        | Thrown e => Thrown e
        | Returned true => Returned exec
        | Returned false =>
            let exec := replace_extension exec ".exe" in
            match file_exists exec with
            | Thrown e => Thrown e
            | Returned true => Returned exec
            | Returned false => scan tokenStream'
            end
        end }.
Proof. by eapply getline_progress. Qed.

(** [getenv("PATH")] is [None] when the variable is not set; building a
    [std::string] from that null pointer has no defined behaviour.  The
    function catches nothing: an exception of [exists] leaves it. *)
Definition FindExecutableInPath (PATH : option string) : option (result string) :=
  path ← PATH;
  Some (scan path).

(** The directories of a PATH value: the tokens [std::getline] cuts it
    into, in order. *)
Equations? tokens (path : string) : list string
  by wf (String.length path) lt :=
  tokens path with inspect (getline (delim os) path) => {
    | exist _ None Hread => [];
    | exist _ (Some (token, rest)) Hread => token :: tokens rest }.
Proof. by eapply getline_progress. Qed.

(** The two paths tried in one directory, in the order they are tried. *)
Definition candidates (dir : string) : list string :=
  [append dir executable; replace_extension (append dir executable) ".exe"].

(** Probing a list of paths in order: the first path that exists, the
    empty path if every probe answers no, the exception of the first probe
    that fails before a path was found. *)
Fixpoint first_existing (paths : list string) : result string :=
  match paths with
  | [] => Returned ""
  | p :: paths' =>
      match file_exists p with
      | Thrown e => Thrown e
      | Returned true => Returned p
      | Returned false => first_existing paths'
      end
  end.


End Find.

(** *** [std::filesystem::path] in the POSIX format *)

Module PosixPath.

Local Open Scope string_scope.

Fixpoint mem (c : ascii) (s : string) : bool :=
  match s with
  | "" => false
  | String c' s' => bool_decide (c = c') || mem c s'
  end.

(** [filename()]: what follows the last separator. *)
Fixpoint filename (p : string) : string :=
  match p with
  | "" => ""
  | String c p' =>
      if mem "/" p' then filename p'
      else if decide (c = "/"%char) then p' else p
  end.

(** The part of a name from its rightmost period on. *)
Fixpoint from_last_period (f : string) : string :=
  match f with
  | "" => ""
  | String c f' =>
      if mem "." f' then from_last_period f'
      else if decide (c = "."%char) then f else ""
  end.

(** [extension()]: dot and dot-dot have none, and a period that opens
    the filename does not start one. *)
Definition extension (p : string) : string :=
  let f := filename p in
  if decide (f = "." ∨ f = "..") then ""
  else match f with
       | "" => ""
       | String _ f' => from_last_period f'
       end.

Definition is_absolute (p : string) : bool :=
  match p with
  | String "/" _ => true
  | _ => false
  end.

Definition has_filename (p : string) : bool :=
  negb (bool_decide (filename p = "")).

(** [path::append] ([operator/=]) *)
Definition append (this p : string) : string :=
  if is_absolute p then p
  else if has_filename this then this ++ "/" ++ p
  else this ++ p.

(** [path::replace_extension] *)
Definition replace_extension (this replacement : string) : string :=
  let stem := String.substring 0 (String.length this - String.length (extension this)) this in
  match replacement with
  | "" => stem
  | String "." _ => stem ++ replacement
  | _ => stem ++ "." ++ replacement
  end.

End PosixPath.

(** The caller destroys one of its output streams. *)
Definition destroy_sink (sink : nat) (w : world) : world :=
  World (strings w) (delete sink (sinks w)) (tasks w) (futures w) (spawned w).

(** The threads that have not yet called the spawn primitive. *)
Fixpoint unspawned (ts : list task) : nat :=
  match ts with
  | [] => 0
  | t :: ts' => (match state t with Spawning => 1 | _ => 0 end) + unspawned ts'
  end.

(** ** LoadFile and WriteFile *)

(** A file as the two functions see it: its bytes, and whether this
    process may open it for reading and for writing. *)
Record file : Type := File {
  bytes : list byte;
  may_read : bool;
  may_write : bool
}.

(** The disk: the files by the path that names them, where a new file may
    be created, and the permissions a new file gets (the process's file
    mode creation mask).  Directories and several names for one file are
    left out. *)
Record disk : Type := Disk {
  files : gmap string file;
  may_create : string → bool;
  new_may_read : bool;
  new_may_write : bool;
  room : string → nat    (* the bytes the device takes of a write to the path *)
}.

Definition put (path : string) (f : file) (d : disk) : disk :=
  Disk (<[path := f]> (files d)) (may_create d) (new_may_read d) (new_may_write d) (room d).

(** [in.seekg(0, in.end); size_t len = in.tellg(); in.seekg(0, in.beg);] *)
Definition tellg_at_end (f : file) : nat := length (bytes f).

(** [b[0]] of a [std::vector<char>]: an empty vector has no element 0 and
    indexing it has no defined behaviour ([None]). *)
Definition at_0 (b : list byte) : option unit :=
  match b with
  | [] => None
  | _ :: _ => Some ()
  end.

(** [in.read(p, len)] into the storage of [b], from the start of the
    file: the bytes read take the place of the first bytes of [b]. *)
Definition read_into (f : file) (len : nat) (b : list byte) : list byte :=
  let got := take len (bytes f) in
  got ++ drop (length got) b.

Definition LoadFile (d : disk) (path : string) : option (result (list byte)) :=
  match files d !! path with
  | None => Some (Thrown (FileSystemException ("File does not exist: " +:+ path)))
  | Some f =>
      if may_read f then
        let len := tellg_at_end f in
        let b := replicate len x00 in
        _ ← at_0 b;
        Some (Returned (read_into f len b))
      else Some (Thrown (FileSystemException ("Could not open file: " +:+ path)))
  end.

(** [out.open(file, std::ios::out | std::ios::binary)]: an existing file
    is emptied, a missing one created; [None] when the stream is not good
    afterwards. *)
Definition open_out (d : disk) (path : string) : option disk :=
  match files d !! path with
  | Some f =>
      if may_write f then Some (put path (File [] (may_read f) (may_write f)) d)
      else None
  | None =>
      if may_create d path then Some (put path (File [] (new_may_read d) (new_may_write d)) d)
      else None
  end.

(** [out.write(p, n)] and [out.close()] on the stream just opened: the
    file receives the bytes the device has room for.  Whether all of them
    arrived shows in the state of the stream only, which the function
    does not look at again. *)
Definition write_out (path : string) (data : list byte) (d : disk) : disk :=
  match files d !! path with
  | Some f =>
      put path (File (bytes f ++ take (room d path) data) (may_read f) (may_write f)) d
  | None => d
  end.

Definition WriteFile (d : disk) (path : string) (data : list byte) : option (bool * disk) :=
  match open_out d path with
  | None => Some (false, d)
  | Some d =>
      _ ← at_0 data;
      Some (true, write_out path (take (length data * 1) data) d)
  end.

(** ** A small environment to run the definitions in *)

Module Demo.

Local Open Scope string_scope.

Definition hello : list byte := [x68; x65; x6c; x6c; x6f; x0a].
Definition blob : list byte := [x61; x00; x62; x0a].

(** A host on which two commands can be spawned and every other spawn
    fails. *)
Definition popen (cmd : string) : option (list byte) :=
  if decide (cmd = "echo hello") then Some hello
  else if decide (cmd = "cat blob") then Some blob
  else None.

(** The caller's objects: three command strings and two empty streams. *)
Definition start : world :=
  World {[ 0 := "echo hello"; 1 := "cat blob"; 2 := "__not_a_real_binary__" ]}
        {[ 0 := []; 1 := [] ]}
        [] [] [].

(** A file system holding three files, none of them with an empty name. *)
Definition file_exists (p : string) : bool :=
  bool_decide (p ∈ ["/usr/bin/foo.exe"; "/opt/tools/foo"; "/bin/sh"]%list).

End Demo.

(** A second host and a disk, for the further properties. *)
Module Host.

Local Open Scope string_scope.

Definition popen (cmd : string) : option (list byte) :=
  if decide (cmd = "cat blob") then Some Demo.blob
  else if decide (cmd = "echo hello") then Some Demo.hello
  else if decide (cmd = "cat blob; echo hello") then Some (Demo.blob ++ Demo.hello)%list
  else None.

Definition disk0 : disk :=
  Disk {[ "/etc/motd" := File Demo.hello true false;
          "/etc/shadow" := File Demo.blob false false;
          "/tmp/empty" := File [] true true;
          "/tmp/out" := File Demo.blob true true ]}
       (λ path, bool_decide (path = "/tmp/new"))
       true true
       (λ path, if decide (path = "/tmp/empty") then 2 else 1024).

(** A file system with the files of [Demo], in which the status of a
    path cannot be read when its last component is longer than 255
    characters or when it lies in the directory [/root/bin]. *)
Definition file_exists (p : string) : result bool :=
  if decide (255 < String.length (PosixPath.filename p))%nat
  then Thrown (filesystem_error "File name too long")
  else if String.prefix "/root/bin/" p
       then Thrown (filesystem_error "Permission denied")
       else Returned (Demo.file_exists p).


End Host.

(** * Properties *)

(** ** The definitions at work *)

(** The command [echo hello]: the sink receives the line and the handle
    resolves without error. *)
Example echo_hello :
  (λ '(r, w), (r, sinks w !! 0)) <$> get Demo.popen 0 (ExecuteAsync 0 0 Demo.start).2
  = Some (Returned (), Some Demo.hello).
Proof. reflexivity. Qed.

(** A command that cannot be spawned: the handle resolves with the
    exception and the sink stays empty. *)
Example not_a_real_binary :
  (λ '(r, w), (r, sinks w !! 0)) <$> get Demo.popen 0 (ExecuteAsync 2 0 Demo.start).2
  = Some (Thrown (FileSystemException "popen() failed!"), Some []).
Proof. reflexivity. Qed.

(** A line longer than the buffer crosses it in pieces of 127 bytes. *)
Example long_line :
  (λ '(buffer, rest), (length buffer, length rest)) <$> fgets buffer_size (replicate 300 x61)
  = Some (128, 173) ∧
  sync_loop (replicate 300 x61) [] = replicate 300 x61.
Proof. split; reflexivity. Qed.

(** [std::getline] on a PATH value: an empty entry is a token, a trailing
    delimiter opens none. *)
Example tokens_of_PATH :
  tokens Posix "/usr/bin::/opt:" = ["/usr/bin"; ""; "/opt"]%string ∧
  tokens Windows "/usr/bin::/opt:" = ["/usr/bin::/opt:"]%string.
Proof. split; reflexivity. Qed.

Example posix_paths :
  PosixPath.append "/usr/bin" "ls" = "/usr/bin/ls"%string ∧
  PosixPath.append "" "ls" = "ls"%string ∧
  PosixPath.append "/usr/bin/" "ls" = "/usr/bin/ls"%string ∧
  PosixPath.replace_extension "/usr/bin/ls" ".exe" = "/usr/bin/ls.exe"%string ∧
  PosixPath.replace_extension "/opt/run.sh" ".exe" = "/opt/run.exe"%string ∧
  PosixPath.replace_extension "/opt/.profile" ".exe" = "/opt/.profile.exe"%string.
Proof. repeat split; reflexivity. Qed.

(** ** What one [fgets] takes and what a C string shows of it *)

Section StdioFacts.

Implicit Types (stream line rest buf : list byte) (room : nat).

Lemma read_line_split room stream :
  (read_line room stream).1 ++ (read_line room stream).2 = stream.
Proof.
  revert stream; induction room as [|room IH]; intros [|c stream]; cbn; try done.
  destruct (decide (c = newline)); [done|].
  specialize (IH stream). destruct (read_line room stream); cbn in *. by f_equal.
Qed.

Lemma read_line_length room stream :
  length (read_line room stream).1 ≤ room.
Proof.
  revert stream; induction room as [|room IH]; intros [|c stream]; cbn; try lia.
  destruct (decide (c = newline)); cbn; [lia|].
  specialize (IH stream). destruct (read_line room stream); cbn in *; lia.
Qed.

Lemma read_line_nonempty room stream :
  0 < room → stream ≠ [] → (read_line room stream).1 ≠ [].
Proof.
  destruct room as [|room]; [lia|]. destruct stream as [|c stream]; [done|].
  intros _ _. cbn. destruct (decide (c = newline)); [done|].
  by destruct (read_line room stream).
Qed.

(** A newline is never followed by anything in the same read. *)
Lemma read_line_newline_last room stream i :
  (read_line room stream).1 !! i = Some newline →
  S i = length (read_line room stream).1.
Proof.
  revert stream i; induction room as [|room IH]; intros [|c stream] i; cbn; try done.
  destruct (decide (c = newline)) as [->|Hc]; cbn.
  - by destruct i.
  - specialize (IH stream). destruct (read_line room stream) as [line rest]; cbn in *.
    destruct i as [|i]; cbn; [congruence|]. intros Hi. f_equal. by apply IH.
Qed.

(** A read that leaves room in the buffer and bytes on the stream was cut
    by a newline. *)
Lemma read_line_short room stream :
  length (read_line room stream).1 < room →
  (read_line room stream).2 ≠ [] →
  last (read_line room stream).1 = Some newline.
Proof.
  revert stream; induction room as [|room IH]; intros [|c stream]; cbn; try done; try lia.
  destruct (decide (c = newline)) as [->|Hc]; cbn; [done|].
  specialize (IH stream). destruct (read_line room stream) as [line rest]; cbn in *.
  intros Hlen Hrest. rewrite last_cons. rewrite IH; [done|lia|done].
Qed.

Lemma c_str_no_NUL buf : NUL ∉ buf → c_str buf = buf.
Proof.
  induction buf as [|c buf IH]; [done|]. intros Hnotin.
  apply not_elem_of_cons in Hnotin as [Hc Hbuf]. cbn.
  destruct (decide (c = NUL)); [congruence|]. by rewrite IH.
Qed.

(** The first NUL ends the string: nothing behind it is seen. *)
Lemma c_str_cut seen behind : NUL ∉ seen → c_str (seen ++ NUL :: behind) = seen.
Proof.
  induction seen as [|c seen IH]; cbn.
  - intros _. by destruct (decide (NUL = NUL)).
  - intros Hnotin. apply not_elem_of_cons in Hnotin as [Hc Hseen].
    destruct (decide (c = NUL)); [congruence|]. by rewrite IH.
Qed.

Lemma c_str_terminator buf : c_str (buf ++ [NUL]) = c_str buf.
Proof.
  induction buf as [|c buf IH]; cbn.
  - by destruct (decide (NUL = NUL)).
  - destruct (decide (c = NUL)); [done|]. by rewrite IH.
Qed.

(** The buffer [fgets] fills: a piece of the stream of 1 to [n - 1]
    bytes, then the terminator. *)
Lemma fgets_Some n stream buf rest :
  2 ≤ n →
  fgets n stream = Some (buf, rest) →
  ∃ line, buf = line ++ [NUL] ∧ stream = line ++ rest ∧
          1 ≤ length line ≤ n - 1 ∧
          line = (read_line (n - 1) stream).1 ∧ rest = (read_line (n - 1) stream).2.
Proof.
  intros Hn. destruct stream as [|c stream]; [done|]. unfold fgets.
  pose proof (read_line_split (n - 1) (c :: stream)) as Hsplit.
  pose proof (read_line_length (n - 1) (c :: stream)) as Hlen.
  pose proof (read_line_nonempty (n - 1) (c :: stream)) as Hne.
  destruct (read_line (n - 1) (c :: stream)) as [line rest'].
  intros ?; simplify_eq. exists line. cbn in *. repeat split; try done.
  destruct line; [exfalso; apply Hne; [lia|done|done]|cbn; lia].
Qed.

Lemma fgets_None n stream : fgets n stream = None ↔ stream = [].
Proof.
  destruct stream as [|c stream]; [done|]. unfold fgets.
  by destruct (read_line (n - 1) (c :: stream)).
Qed.

End StdioFacts.

(** ** ExecuteSync and ExecuteAsync *)

Section ExecFacts.

Variable popen : string → option (list byte).

Implicit Types (pipe result buffer : list byte) (w : world) (t : task).

Lemma sync_loop_step pipe result :
  sync_loop pipe result =
  match fgets buffer_size pipe with
  | None => result
  | Some (buffer, pipe') => sync_loop pipe' (result ++ c_str buffer)
  end.
Proof. funelim (sync_loop pipe result); by rewrite Hread. Qed.

Lemma sync_loop_acc pipe result :
  sync_loop pipe result = result ++ sync_loop pipe [].
Proof.
  remember (length pipe) as n eqn:Hn. revert pipe result Hn.
  induction (lt_wf n) as [n _ IH]; intros pipe result ->.
  rewrite (sync_loop_step pipe result), (sync_loop_step pipe []).
  destruct (fgets buffer_size pipe) as [[buffer pipe']|] eqn:Hread.
  - apply fgets_progress in Hread; [|cbv; lia].
    rewrite (IH _ Hread pipe' (result ++ c_str buffer) eq_refl).
    rewrite (IH _ Hread pipe' ([] ++ c_str buffer) eq_refl).
    by rewrite app_assoc.
  - by rewrite app_nil_r.
Qed.

(** What the loop hands on: chunk after chunk, each as a C string. *)
Lemma sync_loop_chunk pipe buffer pipe' :
  fgets buffer_size pipe = Some (buffer, pipe') →
  sync_loop pipe [] = c_str buffer ++ sync_loop pipe' [].
Proof.
  intros Hread. rewrite sync_loop_step, Hread. cbn. apply sync_loop_acc.
Qed.

Lemma sync_loop_nil result : sync_loop [] result = result.
Proof. by rewrite sync_loop_step. Qed.

(** On a stream without NUL bytes the loop hands on the stream itself. *)
Lemma sync_loop_text pipe : NUL ∉ pipe → sync_loop pipe [] = pipe.
Proof.
  remember (length pipe) as n eqn:Hn. revert pipe Hn.
  induction (lt_wf n) as [n _ IH]; intros pipe -> Hnul.
  rewrite sync_loop_step.
  destruct (fgets buffer_size pipe) as [[buffer pipe']|] eqn:Hread.
  - pose proof (fgets_progress buffer_size _ _ _ ltac:(cbv; lia) Hread) as Hlt.
    apply fgets_Some in Hread as (line & -> & -> & _); [|cbv; lia].
    apply not_elem_of_app in Hnul as [Hline Hrest].
    rewrite sync_loop_acc, (IH _ Hlt pipe' eq_refl Hrest).
    cbn. by rewrite c_str_terminator, c_str_no_NUL.
  - by apply fgets_None in Hread.
Qed.

(** *** One thread, run to its end *)

Lemma alter_set_pc s s' tid (ts : list task) :
  alter (set_pc s) tid (alter (set_pc s') tid ts) = alter (set_pc s) tid ts.
Proof. rewrite list_alter_alter_eq. by apply list_alter_ext. Qed.

Lemma lookup_alter_set_pc s tid (ts : list task) t :
  ts !! tid = Some t → alter (set_pc s) tid ts !! tid = Some (set_pc s t).
Proof. intros Ht. by rewrite list_lookup_alter_eq, Ht. Qed.

Lemma run_schedule_cons tid sched w :
  run_schedule popen (tid :: sched) w =
  task_step popen tid w ≫= run_schedule popen sched.
Proof. done. Qed.

Lemma task_step_spawn tid w t cmd :
  tasks w !! tid = Some t → state t = Spawning →
  strings w !! cmd_ref t = Some cmd →
  task_step popen tid w =
  Some (set_state tid
          (match popen cmd with
           | None => Done (Failed popen_failed)
           | Some pipe => Reading pipe
           end) (log_spawn cmd w)).
Proof.
  intros Ht Hst Hcmd. unfold task_step. rewrite Ht. cbn. rewrite Hst, Hcmd. cbn.
  by destruct (popen cmd).
Qed.

(** A finished thread takes no further step. *)
Lemma run_done n tid w t o :
  tasks w !! tid = Some t → state t = Done o →
  run_schedule popen (replicate n tid) w = Some w.
Proof.
  intros Ht Hst. induction n as [|n IH]; [done|]. cbn.
  unfold task_step. rewrite Ht. cbn. by rewrite Hst.
Qed.

(** The read loop, given time, forwards [sync_loop pipe []] and ends. *)
Lemma run_reading n tid : ∀ w t pipe content,
  tasks w !! tid = Some t → state t = Reading pipe →
  sinks w !! ostr_ref t = Some content →
  length pipe < n →
  run_schedule popen (replicate n tid) w =
  Some (World (strings w)
              (<[ostr_ref t := content ++ sync_loop pipe []]> (sinks w))
              (alter (set_pc (Done Completed)) tid (tasks w))
              (futures w) (spawned w)).
Proof.
  induction n as [|n IH]; intros w t pipe content Ht Hst Hsink Hn; [lia|].
  cbn. unfold task_step at 1. rewrite Ht. cbn. rewrite Hst.
  destruct (fgets buffer_size pipe) as [[buffer pipe']|] eqn:Hread.
  - unfold write. rewrite Hsink. cbn.
    pose proof (fgets_progress buffer_size _ _ _ ltac:(cbv; lia) Hread) as Hlt.
    rewrite (IH _ (set_pc (Reading pipe') t) pipe' (content ++ c_str buffer)); cbn.
    + rewrite insert_insert_eq, alter_set_pc.
      by rewrite (sync_loop_chunk _ _ _ Hread), app_assoc.
    + by apply lookup_alter_set_pc.
    + done.
    + apply lookup_insert_eq.
    + lia.
  - apply fgets_None in Hread as ->. cbn.
    rewrite (run_done n tid _ (set_pc (Done Completed) t) Completed); cbn.
    + unfold set_state. rewrite sync_loop_nil, app_nil_r. by rewrite insert_id.
    + by apply lookup_alter_set_pc.
    + done.
Qed.

Lemma join_spawn_failed tid w t cmd :
  tasks w !! tid = Some t → state t = Spawning →
  strings w !! cmd_ref t = Some cmd → popen cmd = None →
  join popen tid w =
  Some (set_state tid (Done (Failed popen_failed)) (log_spawn cmd w)).
Proof.
  intros Ht Hst Hcmd Hspawn. unfold join, steps_left.
  rewrite Ht, Hst, Hcmd. cbn [mbind option_bind]. rewrite Hspawn.
  change (replicate 1 tid) with [tid].
  rewrite run_schedule_cons, (task_step_spawn _ _ _ _ Ht Hst Hcmd), Hspawn. done.
Qed.

Lemma join_spawned tid w t cmd pipe content :
  tasks w !! tid = Some t → state t = Spawning →
  strings w !! cmd_ref t = Some cmd → popen cmd = Some pipe →
  sinks w !! ostr_ref t = Some content →
  join popen tid w =
  Some (World (strings w)
              (<[ostr_ref t := content ++ sync_loop pipe []]> (sinks w))
              (alter (set_pc (Done Completed)) tid (tasks w))
              (futures w) (spawned w ++ [cmd])).
Proof.
  intros Ht Hst Hcmd Hspawn Hsink. unfold join, steps_left.
  rewrite Ht, Hst, Hcmd. cbn [mbind option_bind]. rewrite Hspawn.
  change (replicate (2 + length pipe) tid) with (tid :: replicate (S (length pipe)) tid).
  rewrite run_schedule_cons, (task_step_spawn _ _ _ _ Ht Hst Hcmd), Hspawn.
  cbn [mbind option_bind].
  rewrite (run_reading (S (length pipe)) tid _ (set_pc (Reading pipe) t) pipe content); cbn.
  - by rewrite alter_set_pc.
  - by apply lookup_alter_set_pc.
  - done.
  - done.
  - lia.
Qed.

(** *** From [ExecuteAsync] to [get] *)

Lemma alter_snoc {A} (f : A → A) (l : list A) x :
  alter f (length l) (l ++ [x]) = l ++ [f x].
Proof. by rewrite <-(Nat.add_0_r (length l)), alter_app_r. Qed.

Lemma insert_snoc {A} (l : list A) x y :
  <[length l := y]> (l ++ [x]) = l ++ [y].
Proof. by rewrite <-(Nat.add_0_r (length l)), insert_app_r. Qed.

Lemma lookup_snoc {A} (l : list A) x : (l ++ [x]) !! length l = Some x.
Proof. by apply list_lookup_middle. Qed.


Lemma get_ended cmd ostr o c w :
  get popen (length (futures w)) (ended cmd ostr o c w) =
  Some (rethrow o,
        World (strings w) (sinks w) (tasks w ++ [Task cmd ostr (Done o)])
              (futures w ++ [None]) (spawned w ++ [c])).
Proof.
  unfold get. cbn. rewrite lookup_snoc. cbn.
  unfold join, steps_left. cbn. rewrite lookup_snoc. cbn.
  rewrite lookup_snoc. cbn. unfold release. cbn. by rewrite insert_snoc.
Qed.

(** The thread of a failing spawn: one step, and it has ended. *)
Lemma run_spawn_failed n cmd ostr c w :
  strings w !! cmd = Some c → popen c = None →
  run_schedule popen (replicate n (length (tasks w))) (launched cmd ostr w) =
  Some (match n with
        | 0 => launched cmd ostr w
        | S _ => ended cmd ostr (Failed popen_failed) c w
        end).
Proof.
  intros Hcmd Hspawn. destruct n as [|n]; [done|].
  cbn [replicate]. rewrite run_schedule_cons.
  rewrite (task_step_spawn _ _ (Task cmd ostr Spawning) c); cbn;
    [|apply lookup_snoc|done|done].
  rewrite Hspawn.
  replace (set_state _ _ _) with (ended cmd ostr (Failed popen_failed) c w)
    by (unfold set_state; cbn; by rewrite alter_snoc).
  apply (run_done n _ _ (Task cmd ostr (Done (Failed popen_failed))) (Failed popen_failed));
    [apply lookup_snoc|done].
Qed.

Lemma get_spawn_failed cmd ostr c w :
  strings w !! cmd = Some c → popen c = None →
  get popen (length (futures w)) (launched cmd ostr w) =
  Some (Thrown popen_failed,
        World (strings w) (sinks w)
              (tasks w ++ [Task cmd ostr (Done (Failed popen_failed))])
              (futures w ++ [None]) (spawned w ++ [c])).
Proof.
  intros Hcmd Hspawn. unfold get. cbn. rewrite lookup_snoc. cbn.
  rewrite (join_spawn_failed _ _ (Task cmd ostr Spawning) c); cbn;
    [|apply lookup_snoc|done|done|done].
  rewrite alter_snoc, lookup_snoc. cbn. unfold release. cbn.
  by rewrite ?alter_snoc, insert_snoc.
Qed.

Lemma get_spawned cmd ostr c pipe content w :
  strings w !! cmd = Some c → popen c = Some pipe →
  sinks w !! ostr = Some content →
  get popen (length (futures w)) (launched cmd ostr w) =
  Some (Returned (),
        World (strings w) (<[ostr := content ++ sync_loop pipe []]> (sinks w))
              (tasks w ++ [Task cmd ostr (Done Completed)])
              (futures w ++ [None]) (spawned w ++ [c])).
Proof.
  intros Hcmd Hspawn Hsink. unfold get. cbn. rewrite lookup_snoc. cbn.
  rewrite (join_spawned _ _ (Task cmd ostr Spawning) c pipe content); cbn;
    [|apply lookup_snoc|done|done|done|done].
  rewrite alter_snoc, lookup_snoc. cbn. unfold release. cbn.
  by rewrite ?alter_snoc, insert_snoc.
Qed.

End ExecFacts.

(** *** The output of a command that was spawned *)

(** C1 (as amended).  When the spawn succeeds and the child's output holds
    no NUL byte, awaiting the handle returned by [ExecuteAsync] returns
    normally and leaves in the sink its former content followed by exactly
    the bytes the child wrote, in their order.  Each read of the loop takes
    between 1 and 127 bytes off the front of the stream and hands on those
    very bytes. *)
Theorem ExecuteAsync_forwards_text popen w cmd ostr c pipe content :
  strings w !! cmd = Some c →
  popen c = Some pipe →
  sinks w !! ostr = Some content →
  NUL ∉ pipe →
  (∃ hdl w1 w2,
      ExecuteAsync cmd ostr w = (Returned hdl, w1) ∧
      get popen hdl w1 = Some (Returned (), w2) ∧
      sinks w2 !! ostr = Some (content ++ pipe)) ∧
  (∀ stream buffer rest,
      suffix stream pipe →
      fgets buffer_size stream = Some (buffer, rest) →
      stream = c_str buffer ++ rest ∧ 1 ≤ length (c_str buffer) ≤ 127).
Proof.
  intros Hcmd Hspawn Hsink Hnul. split.
  - eexists _, _, _. split; [done|]. split.
    + by apply (get_spawned popen cmd ostr c pipe content w).
    + cbn. rewrite lookup_insert_eq. by rewrite sync_loop_text.
  - intros stream buffer rest [front ->] Hread.
    apply not_elem_of_app in Hnul as [_ Hnul].
    apply fgets_Some in Hread as (line & -> & -> & Hlen & _); [|cbv; lia].
    apply not_elem_of_app in Hnul as [Hline _].
    rewrite c_str_terminator, c_str_no_NUL by done.
    split; [done|]. cbn in Hlen. lia.
Qed.

Lemma ExecuteAsync_forwards_text_witness :
  (∃ hdl w1 w2,
      ExecuteAsync 0 0 Demo.start = (Returned hdl, w1) ∧
      get Demo.popen hdl w1 = Some (Returned (), w2) ∧
      sinks w2 !! 0 = Some ([] ++ Demo.hello)) ∧
  (∀ stream buffer rest,
      suffix stream Demo.hello →
      fgets buffer_size stream = Some (buffer, rest) →
      stream = c_str buffer ++ rest ∧ 1 ≤ length (c_str buffer) ≤ 127).
Proof.
  apply (ExecuteAsync_forwards_text Demo.popen Demo.start 0 0 "echo hello" Demo.hello []).
  - reflexivity.
  - reflexivity.
  - reflexivity.
  - compute_done.
Defined.

(** C1, as the claim is worded, fails on a child that writes a NUL byte:
    of the four bytes [a NUL b newline] only the first reaches the sink. *)
Lemma ExecuteAsync_forwards_counterexample :
  ∃ w2,
    Demo.popen "cat blob" = Some Demo.blob ∧
    get Demo.popen 0 (ExecuteAsync 1 1 Demo.start).2 = Some (Returned (), w2) ∧
    sinks w2 !! 1 = Some [x61] ∧
    [x61] ≠ Demo.blob.
Proof.
  eexists. split; [reflexivity|]. split; [vm_compute; reflexivity|].
  split; [reflexivity|discriminate].
Qed.

(** *** A spawn that fails *)

(** C2.  When the spawn primitive returns the null handle, [ExecuteAsync]
    itself returns a valid future and throws nothing; however far the
    background thread has run by then, it is [get] on that future that
    throws [FileSystemException("popen() failed!")]. *)
Theorem ExecuteAsync_spawn_error_at_get popen w cmd ostr c :
  strings w !! cmd = Some c →
  popen c = None →
  ∃ hdl w1,
    ExecuteAsync cmd ostr w = (Returned hdl, w1) ∧
    valid hdl w1 = true ∧
    ∀ n, ∃ w1' w2,
      run_schedule popen (replicate n (length (tasks w))) w1 = Some w1' ∧
      get popen hdl w1' = Some (Thrown (FileSystemException "popen() failed!"), w2).
Proof.
  intros Hcmd Hspawn. eexists _, _. split; [done|]. split.
  - unfold valid. cbn. by rewrite lookup_snoc.
  - intros n. eexists _, _. split.
    + by apply (run_spawn_failed popen n cmd ostr c w).
    + destruct n as [|n].
      * by apply (get_spawn_failed popen cmd ostr c w).
      * apply get_ended.
Qed.

Lemma ExecuteAsync_spawn_error_at_get_witness :
  ∃ hdl w1,
    ExecuteAsync 2 0 Demo.start = (Returned hdl, w1) ∧
    valid hdl w1 = true ∧
    ∀ n, ∃ w1' w2,
      run_schedule Demo.popen (replicate n (length (tasks Demo.start))) w1 = Some w1' ∧
      get Demo.popen hdl w1' = Some (Thrown (FileSystemException "popen() failed!"), w2).
Proof.
  apply (ExecuteAsync_spawn_error_at_get Demo.popen Demo.start 2 0 "__not_a_real_binary__").
  - reflexivity.
  - reflexivity.
Defined.

(** C3.  When the spawn fails nothing is ever written: at every moment of
    the background thread's run, and after the handle has been awaited and
    has thrown, every sink holds what it held before the call. *)
Theorem ExecuteAsync_spawn_error_sink_untouched popen w cmd ostr c :
  strings w !! cmd = Some c →
  popen c = None →
  ∀ n, ∃ w1 w2,
    run_schedule popen (replicate n (length (tasks w))) (ExecuteAsync cmd ostr w).2
      = Some w1 ∧
    sinks w1 = sinks w ∧
    get popen (length (futures w)) w1 = Some (Thrown popen_failed, w2) ∧
    sinks w2 = sinks w.
Proof.
  intros Hcmd Hspawn n. eexists _, _. split.
  - by apply (run_spawn_failed popen n cmd ostr c w).
  - destruct n as [|n].
    + split; [done|]. split; [by apply (get_spawn_failed popen cmd ostr c w)|done].
    + split; [done|]. split; [apply get_ended|done].
Qed.

Lemma ExecuteAsync_spawn_error_sink_untouched_witness :
  ∃ w1 w2,
    run_schedule Demo.popen (replicate 3 (length (tasks Demo.start)))
                 (ExecuteAsync 2 0 Demo.start).2 = Some w1 ∧
    sinks w1 = sinks Demo.start ∧
    get Demo.popen (length (futures Demo.start)) w1 = Some (Thrown popen_failed, w2) ∧
    sinks w2 = sinks Demo.start.
Proof.
  apply (ExecuteAsync_spawn_error_sink_untouched
           Demo.popen Demo.start 2 0 "__not_a_real_binary__").
  - reflexivity.
  - reflexivity.
Defined.

(** *** One read of the loop *)

Lemma task_step_reading popen tid w t pipe content :
  tasks w !! tid = Some t → state t = Reading pipe →
  sinks w !! ostr_ref t = Some content →
  task_step popen tid w =
  Some (match fgets buffer_size pipe with
        | None => set_state tid (Done Completed) w
        | Some (buffer, pipe') =>
            set_state tid (Reading pipe')
              (World (strings w) (<[ostr_ref t := content ++ c_str buffer]> (sinks w))
                     (tasks w) (futures w) (spawned w))
        end).
Proof.
  intros Ht Hst Hsink. unfold task_step. rewrite Ht. cbn. rewrite Hst.
  destruct (fgets buffer_size pipe) as [[buffer pipe']|]; [|done].
  unfold write. by rewrite Hsink.
Qed.

(** C8.  A read of the forwarding loop that does not meet the end of the
    stream fills the buffer with a piece of the stream, 1 to 127 bytes
    long, and the terminating NUL; a newline can only be the last byte of
    the piece, and a piece that stops short of 127 bytes with bytes left
    on the stream ends in a newline.  What goes to the sink is the buffer
    read as a C string: the piece up to its first NUL byte, so the bytes
    behind an embedded NUL are not forwarded. *)
Theorem ExecuteAsync_read_is_C_string popen w tid t stream content buffer rest :
  tasks w !! tid = Some t →
  state t = Reading stream →
  sinks w !! ostr_ref t = Some content →
  fgets buffer_size stream = Some (buffer, rest) →
  ∃ line w',
    stream = line ++ rest ∧
    buffer = line ++ [NUL] ∧
    1 ≤ length line ≤ 127 ∧
    (∀ i, line !! i = Some newline → S i = length line) ∧
    (length line < 127 → rest ≠ [] → last line = Some newline) ∧
    (∀ seen behind, line = seen ++ NUL :: behind → NUL ∉ seen → c_str buffer = seen) ∧
    (NUL ∉ line → c_str buffer = line) ∧
    task_step popen tid w = Some w' ∧
    sinks w' !! ostr_ref t = Some (content ++ c_str buffer) ∧
    tasks w' !! tid = Some (set_pc (Reading rest) t).
Proof.
  intros Ht Hst Hsink Hread.
  pose proof (task_step_reading popen tid w t stream content Ht Hst Hsink) as Hstep.
  rewrite Hread in Hstep.
  apply fgets_Some in Hread as (line & -> & Hsplit & Hlen & Hline & Hrest); [|cbv; lia].
  eexists line, _. repeat split; try done.
  - lia.
  - cbn in Hlen. lia.
  - intros i. rewrite Hline. apply read_line_newline_last.
  - rewrite Hline, Hrest. apply read_line_short.
  - intros seen behind -> Hseen. rewrite <-app_assoc. cbn. by apply c_str_cut.
  - intros Hnul. by rewrite c_str_terminator, c_str_no_NUL.
  - cbn. apply lookup_insert_eq.
  - cbn. by apply lookup_alter_set_pc.
Qed.

Lemma ExecuteAsync_read_is_C_string_witness :
  let stream := Demo.blob ++ [x63] in
  let w := World ∅ {[ 0 := [] ]} [Task 0 0 (Reading stream)] [Some 0] ["cat blob"%string] in
  ∃ line w',
    stream = line ++ [x63] ∧
    Demo.blob ++ [NUL] = line ++ [NUL] ∧
    1 ≤ length line ≤ 127 ∧
    (∀ i, line !! i = Some newline → S i = length line) ∧
    (length line < 127 → [x63] ≠ [] → last line = Some newline) ∧
    (∀ seen behind, line = seen ++ NUL :: behind → NUL ∉ seen →
                    c_str (Demo.blob ++ [NUL]) = seen) ∧
    (NUL ∉ line → c_str (Demo.blob ++ [NUL]) = line) ∧
    task_step Demo.popen 0 w = Some w' ∧
    sinks w' !! 0 = Some ([] ++ c_str (Demo.blob ++ [NUL])) ∧
    tasks w' !! 0 = Some (set_pc (Reading [x63]) (Task 0 0 (Reading stream))).
Proof.
  intros stream w.
  apply (ExecuteAsync_read_is_C_string Demo.popen w 0 (Task 0 0 (Reading stream))
           stream [] (Demo.blob ++ [NUL]) [x63]).
  - reflexivity.
  - reflexivity.
  - reflexivity.
  - reflexivity.
Defined.

(** *** ExecuteSync against ExecuteAsync *)

(** C9.  On the same command the two runners do the same: when
    [ExecuteSync] returns a string, awaiting [ExecuteAsync] returns
    normally and has appended exactly that string to the sink; when
    [ExecuteSync] throws, which it does exactly when the spawn primitive
    returns null, awaiting [ExecuteAsync] throws the same exception and
    the sink is as it was. *)
Theorem ExecuteSync_ExecuteAsync_agree popen w cmd ostr c content :
  strings w !! cmd = Some c →
  sinks w !! ostr = Some content →
  ∃ hdl w1 w2,
    ExecuteAsync cmd ostr w = (Returned hdl, w1) ∧
    match ExecuteSync popen c with
    | Returned result =>
        is_Some (popen c) ∧
        get popen hdl w1 = Some (Returned (), w2) ∧
        sinks w2 !! ostr = Some (content ++ result)
    | Thrown e =>
        popen c = None ∧
        get popen hdl w1 = Some (Thrown e, w2) ∧
        sinks w2 !! ostr = Some content
    end.
Proof.
  intros Hcmd Hsink. unfold ExecuteSync.
  destruct (popen c) as [pipe|] eqn:Hspawn.
  - eexists _, _, _. split; [done|]. split; [done|]. split.
    + by apply (get_spawned popen cmd ostr c pipe content w).
    + cbn. apply lookup_insert_eq.
  - eexists _, _, _. split; [done|]. split; [done|]. split.
    + by apply (get_spawn_failed popen cmd ostr c w).
    + done.
Qed.

Lemma ExecuteSync_ExecuteAsync_agree_witness :
  ∃ hdl w1 w2,
    ExecuteAsync 1 1 Demo.start = (Returned hdl, w1) ∧
    match ExecuteSync Demo.popen "cat blob" with
    | Returned result =>
        is_Some (Demo.popen "cat blob") ∧
        get Demo.popen hdl w1 = Some (Returned (), w2) ∧
        sinks w2 !! 1 = Some ([] ++ result)
    | Thrown e =>
        Demo.popen "cat blob" = None ∧
        get Demo.popen hdl w1 = Some (Thrown e, w2) ∧
        sinks w2 !! 1 = Some []
    end.
Proof.
  apply (ExecuteSync_ExecuteAsync_agree Demo.popen Demo.start 1 1 "cat blob" []).
  - reflexivity.
  - reflexivity.
Defined.

(** *** The completion handle *)

(** C4 (as amended).  The future returned by [ExecuteAsync] stands for one
    new thread, which has not yet called the spawn primitive.  Awaiting it
    resolves it once, to one outcome: the first [get] returns or throws
    according to that outcome, after exactly one call of the spawn
    primitive, and the finished thread takes no further step.  That [get]
    leaves the future without shared state: it is no longer valid, and a
    second [get] on it has no defined result (and runs nothing). *)
Theorem future_resolves_once popen w cmd ostr c content :
  strings w !! cmd = Some c →
  sinks w !! ostr = Some content →
  ∃ hdl w1 o w2,
    ExecuteAsync cmd ostr w = (Returned hdl, w1) ∧
    tasks w1 = tasks w ++ [Task cmd ostr Spawning] ∧
    spawned w1 = spawned w ∧
    valid hdl w1 = true ∧
    get popen hdl w1 = Some (rethrow o, w2) ∧
    tasks w2 = tasks w ++ [Task cmd ostr (Done o)] ∧
    spawned w2 = spawned w ++ [c] ∧
    (∀ n, run_schedule popen (replicate n (length (tasks w))) w2 = Some w2) ∧
    valid hdl w2 = false ∧
    get popen hdl w2 = None.
Proof.
  intros Hcmd Hsink.
  assert (∃ o w2, get popen (length (futures w)) (launched cmd ostr w) = Some (rethrow o, w2) ∧
                  tasks w2 = tasks w ++ [Task cmd ostr (Done o)] ∧
                  spawned w2 = spawned w ++ [c] ∧
                  futures w2 = futures w ++ [None]) as (o & w2 & Hget & Htasks & Hlog & Hfut).
  { destruct (popen c) as [pipe|] eqn:Hspawn.
    - exists Completed. eexists.
      split; [by apply (get_spawned popen cmd ostr c pipe content w)|done].
    - exists (Failed popen_failed). eexists.
      split; [by apply (get_spawn_failed popen cmd ostr c w)|done]. }
  exists (length (futures w)), (launched cmd ostr w), o, w2.
  repeat split; try done.
  - unfold valid. cbn. by rewrite lookup_snoc.
  - intros n. apply (run_done popen n _ _ (Task cmd ostr (Done o)) o); [|done].
    rewrite Htasks. apply lookup_snoc.
  - unfold valid. by rewrite Hfut, lookup_snoc.
  - unfold get. by rewrite Hfut, lookup_snoc.
Qed.

Lemma future_resolves_once_witness :
  ∃ hdl w1 o w2,
    ExecuteAsync 0 0 Demo.start = (Returned hdl, w1) ∧
    tasks w1 = tasks Demo.start ++ [Task 0 0 Spawning] ∧
    spawned w1 = spawned Demo.start ∧
    valid hdl w1 = true ∧
    get Demo.popen hdl w1 = Some (rethrow o, w2) ∧
    tasks w2 = tasks Demo.start ++ [Task 0 0 (Done o)] ∧
    spawned w2 = spawned Demo.start ++ ["echo hello"%string] ∧
    (∀ n, run_schedule Demo.popen (replicate n (length (tasks Demo.start))) w2 = Some w2) ∧
    valid hdl w2 = false ∧
    get Demo.popen hdl w2 = None.
Proof.
  apply (future_resolves_once Demo.popen Demo.start 0 0 "echo hello" []).
  - reflexivity.
  - reflexivity.
Defined.

(** C4, as the claim is worded, fails on its last part: after the first
    [get] has returned, a second [get] on the same future does not return
    that outcome again. *)
Lemma future_second_get_counterexample :
  ∃ w2,
    get Demo.popen 0 (ExecuteAsync 0 0 Demo.start).2 = Some (Returned (), w2) ∧
    get Demo.popen 0 w2 = None ∧
    get Demo.popen 0 w2 ≠ Some (Returned (), w2).
Proof.
  eexists. split; [vm_compute; reflexivity|]. split; [reflexivity|discriminate].
Qed.

(** *** The command string *)

Lemma task_step_dangling popen tid w t :
  tasks w !! tid = Some t → state t = Spawning →
  strings w !! cmd_ref t = None →
  task_step popen tid w = None.
Proof.
  intros Ht Hst Hcmd. unfold task_step. rewrite Ht. cbn. by rewrite Hst, Hcmd.
Qed.

Lemma join_dangling popen tid w t :
  tasks w !! tid = Some t → state t = Spawning →
  strings w !! cmd_ref t = None →
  join popen tid w = None.
Proof.
  intros Ht Hst Hcmd. unfold join, steps_left. rewrite Ht, Hst, Hcmd.
  cbn [mbind option_bind]. change (replicate 1 tid) with [tid].
  by rewrite run_schedule_cons, (task_step_dangling popen tid w t).
Qed.

(** C5 (as amended).  The command is not copied into the background
    thread: the thread reads the caller's string through the captured
    reference at the moment it calls the spawn primitive.  The command it
    spawns is the value the string has then, whatever it was when
    [ExecuteAsync] was called; and once the caller has destroyed the
    string, neither the thread's step nor awaiting the handle has a
    defined result. *)
Theorem ExecuteAsync_command_by_reference popen w cmd ostr :
  let tid := length (tasks w) in
  let w1 := (ExecuteAsync cmd ostr w).2 in
  (∀ c', task_step popen tid (assign cmd c' w1) =
         Some (set_state tid
                 (match popen c' with
                  | None => Done (Failed popen_failed)
                  | Some pipe => Reading pipe
                  end)
                 (log_spawn c' (assign cmd c' w1)))) ∧
  task_step popen tid (destroy cmd w1) = None ∧
  get popen (length (futures w)) (destroy cmd w1) = None.
Proof.
  intros tid w1. split; [|split].
  - intros c'. apply (task_step_spawn popen tid _ (Task cmd ostr Spawning) c').
    + apply lookup_snoc.
    + done.
    + cbn. apply lookup_insert_eq.
  - apply (task_step_dangling popen tid _ (Task cmd ostr Spawning)).
    + apply lookup_snoc.
    + done.
    + cbn. apply lookup_delete_eq.
  - unfold get. cbn [futures destroy w1 ExecuteAsync snd]. rewrite lookup_snoc.
    cbn [mbind option_bind].
    rewrite (join_dangling popen (length (tasks w)) _ (Task cmd ostr Spawning)); [done| | |].
    + apply lookup_snoc.
    + done.
    + cbn. apply lookup_delete_eq.
Qed.

(** C5, as the claim is worded, fails: what the caller does to its string
    after [ExecuteAsync] has returned decides which command runs.  Left
    alone, the string makes the thread run [echo hello]; overwritten, it
    makes the same thread run the other command; destroyed, it leaves the
    operation without a defined result. *)
Lemma ExecuteAsync_command_copy_counterexample :
  let w1 := (ExecuteAsync 0 0 Demo.start).2 in
  strings w1 !! 0 = Some "echo hello"%string ∧
  (∃ w2, get Demo.popen 0 w1 = Some (Returned (), w2) ∧
         spawned w2 = ["echo hello"%string] ∧ sinks w2 !! 0 = Some Demo.hello) ∧
  (∃ w2, get Demo.popen 0 (assign 0 "cat blob" w1) = Some (Returned (), w2) ∧
         spawned w2 = ["cat blob"%string] ∧ sinks w2 !! 0 = Some [x61]) ∧
  get Demo.popen 0 (destroy 0 w1) = None.
Proof.
  split; [reflexivity|]. split; [|split].
  - eexists. split; [vm_compute; reflexivity|]. split; reflexivity.
  - eexists. split; [vm_compute; reflexivity|]. split; reflexivity.
  - reflexivity.
Qed.

(** *** Threads running side by side *)

Section Interleaving.

Variable popen : string → option (list byte).

Implicit Types (w : world) (t : task) (tid ostr : nat).

Local Abbreviation pending := (pending popen).
Local Abbreviation runs := (runs popen).

Lemma frame_refl tid ostr w : frame tid ostr w w.
Proof. done. Qed.

Lemma frame_trans tid ostr w1 w2 w3 :
  frame tid ostr w1 w2 → frame tid ostr w2 w3 → frame tid ostr w1 w3.
Proof.
  intros (Hs & Ht & Hk) (Hs' & Ht' & Hk'). repeat split.
  - congruence.
  - intros j Hj. rewrite Ht', Ht; done.
  - intros s Hs0. rewrite Hk', Hk; done.
Qed.

Lemma pending_strings t w w' : strings w' = strings w → pending t w' = pending t w.
Proof. intros Hs. unfold pending. by rewrite Hs. Qed.

Lemma runs_frame tid ostr w w' j oj o total :
  frame tid ostr w w' → j ≠ tid → oj ≠ ostr →
  runs j oj o total w → runs j oj o total w'.
Proof.
  intros (Hs & Ht & Hk) Hj Hoj (t & content & out & Hjt & Ho & Hsink & Hpend & Htot).
  exists t, content, out. rewrite Ht, Hk, (pending_strings t w w') by done. done.
Qed.

(** A step of a thread that [runs]: it is defined, keeps the thread on
    its way, brings it nearer to its end and leaves the others alone. *)
Lemma step_runs tid ostr o total w :
  runs tid ostr o total w →
  ∃ w', task_step popen tid w = Some w' ∧
        runs tid ostr o total w' ∧
        frame tid ostr w w' ∧
        futures w' = futures w ∧
        steps_left popen tid w' ≤ steps_left popen tid w - 1.
Proof.
  intros (t & content & out & Ht & Ho & Hsink & Hpend & Htot).
  unfold pending in Hpend. destruct (state t) as [|pipe|o'] eqn:Hst.
  - destruct (strings w !! cmd_ref t) as [cmd|] eqn:Hcmd; [|done].
    eexists. split; [by apply (task_step_spawn popen tid w t cmd)|].
    cbn in Hpend. split; [|split; [|split; [done|]]].
    + eexists (set_pc _ t), content, out. cbn.
      split; [by apply lookup_alter_set_pc|]. split; [done|]. split; [done|].
      split; [|done]. unfold pending. cbn.
      by destruct (popen cmd).
    + repeat split; cbn; try done. intros j Hj. by apply list_lookup_alter_ne.
    + unfold steps_left. cbn. rewrite (lookup_alter_set_pc _ _ _ t Ht), Ht, Hst, Hcmd.
      cbn. destruct (popen cmd); cbn; lia.
  - subst ostr. rewrite (task_step_reading popen tid w t pipe content Ht Hst Hsink).
    injection Hpend as <- <-.
    eexists. split; [done|].
    destruct (fgets buffer_size pipe) as [[buffer pipe']|] eqn:Hread.
    + split; [|split; [|split; [done|]]].
      * eexists (set_pc _ t), _, (sync_loop pipe' []). cbn.
        split; [by apply lookup_alter_set_pc|]. split; [done|].
        split; [apply lookup_insert_eq|]. split; [done|].
        by rewrite <-app_assoc, <-(sync_loop_chunk _ _ _ Hread).
      * repeat split; cbn; try done.
        -- intros j Hj. by apply list_lookup_alter_ne.
        -- intros s Hs. by apply lookup_insert_ne.
      * unfold steps_left. cbn.
        rewrite (lookup_alter_set_pc _ _ _ t Ht), Ht, Hst. cbn.
        pose proof (fgets_progress buffer_size _ _ _ ltac:(cbv; lia) Hread). lia.
    + apply fgets_None in Hread as ->. split; [|split; [|split; [done|]]].
      * eexists (set_pc _ t), content, []. cbn.
        split; [by apply lookup_alter_set_pc|]. split; [done|]. split; [done|].
        split; [done|]. by rewrite sync_loop_nil in Htot.
      * repeat split; cbn; try done. intros j Hj. by apply list_lookup_alter_ne.
      * unfold steps_left. cbn.
        rewrite (lookup_alter_set_pc _ _ _ t Ht), Ht, Hst. cbn. lia.
  - exists w. split; [|split; [|split; [|split]]].
    + unfold task_step. rewrite Ht. cbn. by rewrite Hst.
    + exists t, content, out. unfold pending. by rewrite Hst.
    + apply frame_refl.
    + done.
    + unfold steps_left. rewrite Ht, Hst. lia.
Qed.

(** Two threads with different sinks, stepped in any order. *)
Lemma run_two i oi o1 total1 j oj o2 total2 sched :
  i ≠ j → oi ≠ oj →
  Forall (λ k, k = i ∨ k = j) sched →
  ∀ w, runs i oi o1 total1 w → runs j oj o2 total2 w →
       ∃ w', run_schedule popen sched w = Some w' ∧
             runs i oi o1 total1 w' ∧ runs j oj o2 total2 w' ∧
             futures w' = futures w.
Proof.
  intros Hij Hoij. induction 1 as [|k sched Hk _ IH]; intros w Hi Hj.
  - by exists w.
  - rewrite run_schedule_cons. destruct Hk as [->| ->].
    + destruct (step_runs i oi o1 total1 w Hi) as (w1 & -> & Hi1 & Hfr & Hfut & _).
      cbn. destruct (IH w1 Hi1) as (w' & Hrun & ? & ? & Hfut').
      { by apply (runs_frame i oi w w1). }
      exists w'. rewrite Hfut', Hfut. done.
    + destruct (step_runs j oj o2 total2 w Hj) as (w1 & -> & Hj1 & Hfr & Hfut & _).
      cbn. destruct (IH w1) as (w' & Hrun & ? & ? & Hfut'); [|done|].
      { by apply (runs_frame j oj w w1). }
      exists w'. rewrite Hfut', Hfut. done.
Qed.

(** Left to run, a thread ends as expected. *)
Lemma run_to_end tid ostr o total n : ∀ w,
  runs tid ostr o total w → steps_left popen tid w ≤ n →
  ∃ w', run_schedule popen (replicate n tid) w = Some w' ∧
        runs tid ostr o total w' ∧ frame tid ostr w w' ∧
        futures w' = futures w ∧ steps_left popen tid w' = 0.
Proof.
  induction n as [|n IH]; intros w Hruns Hn.
  - exists w. repeat split; try done. lia.
  - cbn [replicate]. rewrite run_schedule_cons.
    destruct (step_runs tid ostr o total w Hruns) as (w1 & -> & Hruns1 & Hfr & Hfut & Hlt).
    cbn. destruct (IH w1 Hruns1) as (w' & Hrun & ? & Hfr' & Hfut' & ?); [lia|].
    exists w'. split; [done|]. split; [done|].
    split; [by apply (frame_trans tid ostr w w1 w')|]. split; [congruence|done].
Qed.

Lemma runs_ended tid ostr o total w :
  runs tid ostr o total w → steps_left popen tid w = 0 →
  (∃ t, tasks w !! tid = Some t ∧ state t = Done o) ∧ sinks w !! ostr = Some total.
Proof.
  intros (t & content & out & Ht & Ho & Hsink & Hpend & Htot).
  unfold steps_left, pending in *. rewrite Ht.
  destruct (state t) as [|pipe|o'] eqn:Hst.
  - destruct (strings w !! cmd_ref t ≫= popen); lia.
  - lia.
  - intros _. simplify_eq. rewrite app_nil_r. split; [by exists t|done].
Qed.

(** Awaiting the future of a thread that [runs] hands over its outcome
    and finds its sink complete; the other threads and sinks are as
    they were. *)
Lemma get_runs hdl tid ostr o total w :
  futures w !! hdl = Some (Some tid) →
  runs tid ostr o total w →
  ∃ w', get popen hdl w = Some (rethrow o, w') ∧
        sinks w' !! ostr = Some total ∧
        frame tid ostr w w' ∧
        futures w' = <[hdl := None]> (futures w).
Proof.
  intros Hhdl Hruns. unfold get. rewrite Hhdl. cbn [mbind option_bind].
  destruct (run_to_end tid ostr o total _ w Hruns (le_n _))
    as (w' & Hjoin & Hruns' & Hfr & Hfut & Hend).
  fold (join popen tid w) in Hjoin. rewrite Hjoin. cbn [mbind option_bind].
  destruct (runs_ended tid ostr o total w' Hruns' Hend) as [(t & -> & Hst) Hsink].
  cbn. rewrite Hst. eexists. split; [done|]. cbn. split; [done|].
  split; [|by rewrite Hfut]. destruct Hfr as (? & ? & ?). done.
Qed.

End Interleaving.


Lemma runs_launched popen tid cmd ostr c content w :
  tasks w !! tid = Some (Task cmd ostr Spawning) →
  strings w !! cmd = Some c →
  sinks w !! ostr = Some content →
  runs popen tid ostr (alone popen c content).1 (alone popen c content).2 w.
Proof.
  intros Ht Hcmd Hsink. unfold alone.
  exists (Task cmd ostr Spawning), content. unfold pending. cbn. rewrite Hcmd. cbn.
  destruct (popen c) as [pipe|]; cbn.
  - by exists (sync_loop pipe []).
  - exists []. by rewrite app_nil_r.
Qed.

(** C6.  Two calls with different sinks do not touch one another.  Let the
    two background threads be stepped in any order whatever and the two
    handles then be awaited: each handle returns or throws as it does
    when its call is the only one made, and each sink ends with the
    content it has then. *)
Theorem ExecuteAsync_calls_independent
    popen w cmd1 ostr1 cmd2 ostr2 c1 c2 content1 content2 sched :
  strings w !! cmd1 = Some c1 →
  strings w !! cmd2 = Some c2 →
  sinks w !! ostr1 = Some content1 →
  sinks w !! ostr2 = Some content2 →
  ostr1 ≠ ostr2 →
  Forall (λ tid, tid = length (tasks w) ∨ tid = S (length (tasks w))) sched →
  ∃ r1 out1 r2 out2,
    (∃ w1, get popen (length (futures w)) (ExecuteAsync cmd1 ostr1 w).2 = Some (r1, w1) ∧
           sinks w1 !! ostr1 = Some out1) ∧
    (∃ w2, get popen (length (futures w)) (ExecuteAsync cmd2 ostr2 w).2 = Some (r2, w2) ∧
           sinks w2 !! ostr2 = Some out2) ∧
    (∃ hdl1 wa hdl2 wb w' w1 w2,
        ExecuteAsync cmd1 ostr1 w = (Returned hdl1, wa) ∧
        ExecuteAsync cmd2 ostr2 wa = (Returned hdl2, wb) ∧
        run_schedule popen sched wb = Some w' ∧
        get popen hdl1 w' = Some (r1, w1) ∧
        get popen hdl2 w1 = Some (r2, w2) ∧
        sinks w2 !! ostr1 = Some out1 ∧
        sinks w2 !! ostr2 = Some out2).
Proof.
  intros Hcmd1 Hcmd2 Hsink1 Hsink2 Hostr Hsched.
  set (a1 := alone popen c1 content1). set (a2 := alone popen c2 content2).
  exists (rethrow a1.1), a1.2, (rethrow a2.1), a2.2.
  split; [|split].
  - destruct (get_runs popen (length (futures w)) (length (tasks w)) ostr1 a1.1 a1.2
                (launched cmd1 ostr1 w)) as (w1 & Hget & Hout & _).
    { apply lookup_snoc. }
    { apply (runs_launched popen _ cmd1 ostr1 c1 content1); [apply lookup_snoc|done..]. }
    by exists w1.
  - destruct (get_runs popen (length (futures w)) (length (tasks w)) ostr2 a2.1 a2.2
                (launched cmd2 ostr2 w)) as (w2 & Hget & Hout & _).
    { apply lookup_snoc. }
    { apply (runs_launched popen _ cmd2 ostr2 c2 content2); [apply lookup_snoc|done..]. }
    by exists w2.
  - set (tid1 := length (tasks w)). set (hdl1 := length (futures w)).
    set (wa := launched cmd1 ostr1 w). set (wb := launched cmd2 ostr2 wa).
    assert (runs popen tid1 ostr1 a1.1 a1.2 wb) as Hruns1.
    { apply (runs_launched popen _ cmd1 ostr1 c1 content1); [|done..].
      cbn. rewrite lookup_app_l by (rewrite length_app; cbn; lia). apply lookup_snoc. }
    assert (runs popen (S tid1) ostr2 a2.1 a2.2 wb) as Hruns2.
    { apply (runs_launched popen _ cmd2 ostr2 c2 content2); [|done..].
      cbn. replace (S tid1) with (length (tasks w ++ [Task cmd1 ostr1 Spawning]))
        by (rewrite length_app; cbn; unfold tid1; lia).
      apply lookup_snoc. }
    destruct (run_two popen tid1 ostr1 a1.1 a1.2 (S tid1) ostr2 a2.1 a2.2 sched
                ltac:(lia) Hostr Hsched wb Hruns1 Hruns2)
      as (w' & Hrun & Hruns1' & Hruns2' & Hfut).
    destruct (get_runs popen hdl1 tid1 ostr1 a1.1 a1.2 w') as (w1 & Hget1 & Hout1 & Hfr1 & Hfut1).
    { rewrite Hfut. cbn. rewrite lookup_app_l by (rewrite length_app; cbn; lia).
      apply lookup_snoc. }
    { done. }
    destruct (get_runs popen (S hdl1) (S tid1) ostr2 a2.1 a2.2 w1) as (w2 & Hget2 & Hout2 & Hfr2 & _).
    { rewrite Hfut1, list_lookup_insert_ne, Hfut by lia. cbn.
      replace (S hdl1) with (length (futures w ++ [Some tid1]))
        by (rewrite length_app; cbn; unfold hdl1; lia).
      rewrite lookup_snoc. do 2 f_equal. rewrite length_app. cbn. unfold tid1. lia. }
    { apply (runs_frame popen tid1 ostr1 w' w1); [done|lia|done|done]. }
    exists hdl1, wa, (S hdl1), wb, w', w1, w2.
    split; [done|]. split.
    { unfold wb, launched, ExecuteAsync, hdl1. cbn. do 2 f_equal.
      rewrite length_app. cbn. lia. }
    split; [done|]. split; [done|]. split; [done|]. split; [|done].
    destruct Hfr2 as (_ & _ & Hsinks). by rewrite Hsinks.
Qed.

Lemma ExecuteAsync_calls_independent_witness :
  ∃ r1 out1 r2 out2,
    (∃ w1, get Demo.popen (length (futures Demo.start)) (ExecuteAsync 0 0 Demo.start).2
             = Some (r1, w1) ∧
           sinks w1 !! 0 = Some out1) ∧
    (∃ w2, get Demo.popen (length (futures Demo.start)) (ExecuteAsync 2 1 Demo.start).2
             = Some (r2, w2) ∧
           sinks w2 !! 1 = Some out2) ∧
    (∃ hdl1 wa hdl2 wb w' w1 w2,
        ExecuteAsync 0 0 Demo.start = (Returned hdl1, wa) ∧
        ExecuteAsync 2 1 wa = (Returned hdl2, wb) ∧
        run_schedule Demo.popen [1; 0; 1; 0] wb = Some w' ∧
        get Demo.popen hdl1 w' = Some (r1, w1) ∧
        get Demo.popen hdl2 w1 = Some (r2, w2) ∧
        sinks w2 !! 0 = Some out1 ∧
        sinks w2 !! 1 = Some out2).
Proof.
  apply (ExecuteAsync_calls_independent Demo.popen Demo.start 0 0 2 1
           "echo hello" "__not_a_real_binary__" [] [] [1; 0; 1; 0]).
  - reflexivity.
  - reflexivity.
  - reflexivity.
  - reflexivity.
  - lia.
  - repeat (apply List.Forall_cons; [cbn; lia|]). apply List.Forall_nil.
Defined.

(** ** FindExecutableInPath *)

Section FindFacts.

Local Open Scope string_scope.

Variable file_exists : string → result bool.
Variable append : string → string → string.
Variable replace_extension : string → string → string.
Variable os : platform.
Variable executable : string.

Local Abbreviation scan := (scan file_exists append replace_extension os executable).
Local Abbreviation tokens := (tokens os).
Local Abbreviation candidates := (candidates append replace_extension executable).
Local Abbreviation first_existing := (first_existing file_exists).

Lemma tokens_step path :
  tokens path =
  match getline (delim os) path with
  | None => []
  | Some (token, rest) => token :: tokens rest
  end.
Proof. funelim (tokens path); by rewrite Hread. Qed.

Lemma scan_step path :
  scan path =
  match getline (delim os) path with
  | None => Returned ""
  | Some (token, rest) =>
      match file_exists (append token executable) with
      | Thrown e => Thrown e
      | Returned true => Returned (append token executable)
      | Returned false =>
          match file_exists (replace_extension (append token executable) ".exe") with
          | Thrown e => Thrown e
          | Returned true => Returned (replace_extension (append token executable) ".exe")
          | Returned false => scan rest
          end
      end
  end.
Proof. funelim (scan path); by rewrite Hread. Qed.

(** The loop probes the candidates directory by directory, as
    [first_existing] does. *)
Lemma scan_first_existing path :
  scan path = first_existing (flat_map candidates (tokens path)).
Proof.
  remember (String.length path) as n eqn:Hn. revert path Hn.
  induction (lt_wf n) as [n _ IH]; intros path ->.
  rewrite scan_step, tokens_step.
  destruct (getline (delim os) path) as [[token rest]|] eqn:Hread; [|done].
  cbn. destruct (file_exists (append token executable)) as [[|]|e]; [done| |done].
  destruct (file_exists (replace_extension (append token executable) ".exe"))
    as [[|]|e]; [done| |done].
  apply (IH (String.length rest)); [by eapply getline_progress|done].
Qed.




Lemma elem_of_candidates p dirs :
  p ∈ flat_map candidates dirs ↔
  ∃ dir, dir ∈ dirs ∧
         (p = append dir executable ∨
          p = replace_extension (append dir executable) ".exe").
Proof.
  rewrite list_elem_of_In, in_flat_map. split.
  - intros (dir & Hdir & Hp). exists dir. rewrite list_elem_of_In. split; [done|].
    cbn in Hp. destruct Hp as [<-|[<-|[]]]; auto.
  - intros (dir & Hdir & Hp). exists dir. rewrite <-list_elem_of_In. split; [done|].
    cbn. destruct Hp as [->| ->]; auto.
Qed.

(** *** What [std::getline] makes of a PATH value *)






Local Abbreviation sep := (String (delim os) "").






End FindFacts.



(** An executable that is in neither directory of PATH, on a file system
    whose probes all answer: the empty path comes back. *)
Example bar_is_not_found :
  FindExecutableInPath (λ p, Returned (Demo.file_exists p))
    PosixPath.append PosixPath.replace_extension
    Posix "bar" (Some "/usr/local/bin:/usr/bin"%string) = Some (Returned ""%string) ∧
  map (λ p, Demo.file_exists p)
      ["/usr/local/bin/bar"; "/usr/local/bin/bar.exe"; "/usr/bin/bar"; "/usr/bin/bar.exe"]%string
  = [false; false; false; false].
Proof. split; reflexivity. Qed.





(** * Further properties of the code *)

(** ** What ExecuteSync returns *)

Lemma c_str_free buf : NUL ∉ c_str buf.
Proof.
  induction buf as [|c buf IH]; cbn; [apply not_elem_of_nil|].
  destruct (decide (c = NUL)); [apply not_elem_of_nil|].
  apply not_elem_of_cons. split; [congruence|done].
Qed.

Lemma c_str_sublist buf : c_str buf `sublist_of` buf.
Proof.
  induction buf as [|c buf IH]; cbn; [done|].
  destruct (decide (c = NUL)); [apply sublist_nil_l|by apply sublist_skip].
Qed.

(** Whatever the loop is given, it hands on no NUL byte. *)
Lemma sync_loop_free pipe : NUL ∉ sync_loop pipe [].
Proof.
  remember (length pipe) as n eqn:Hn. revert pipe Hn.
  induction (lt_wf n) as [n _ IH]; intros pipe ->.
  rewrite sync_loop_step.
  destruct (fgets buffer_size pipe) as [[buffer pipe']|] eqn:Hread.
  - pose proof (fgets_progress buffer_size _ _ _ ltac:(cbv; lia) Hread) as Hlt.
    rewrite sync_loop_acc. cbn. apply not_elem_of_app. split.
    + apply c_str_free.
    + by apply (IH _ Hlt).
  - apply not_elem_of_nil.
Qed.

(** The loop only ever leaves bytes out. *)
Lemma sync_loop_sublist pipe : sync_loop pipe [] `sublist_of` pipe.
Proof.
  remember (length pipe) as n eqn:Hn. revert pipe Hn.
  induction (lt_wf n) as [n _ IH]; intros pipe ->.
  rewrite sync_loop_step.
  destruct (fgets buffer_size pipe) as [[buffer pipe']|] eqn:Hread.
  - pose proof (fgets_progress buffer_size _ _ _ ltac:(cbv; lia) Hread) as Hlt.
    apply fgets_Some in Hread as (line & -> & -> & _); [|cbv; lia].
    rewrite sync_loop_acc. cbn. apply sublist_app.
    + rewrite c_str_terminator. apply c_str_sublist.
    + by apply (IH _ Hlt).
  - apply sublist_nil_l.
Qed.

(** X1.  When the child's output holds no NUL byte, [ExecuteSync] returns
    that output, byte for byte, however long its lines are. *)
Theorem ExecuteSync_returns_text popen cmd pipe :
  popen cmd = Some pipe →
  NUL ∉ pipe →
  ExecuteSync popen cmd = Returned pipe.
Proof.
  intros Hspawn Hnul. unfold ExecuteSync. rewrite Hspawn.
  by rewrite sync_loop_text.
Qed.

Lemma ExecuteSync_returns_text_witness :
  ExecuteSync Demo.popen "echo hello" = Returned Demo.hello.
Proof.
  apply (ExecuteSync_returns_text Demo.popen "echo hello" Demo.hello).
  - reflexivity.
  - compute_done.
Defined.

(** X2.  The string [ExecuteSync] returns never holds a NUL byte, whatever
    the child wrote. *)
Theorem ExecuteSync_result_has_no_NUL popen cmd result :
  ExecuteSync popen cmd = Returned result →
  NUL ∉ result.
Proof.
  unfold ExecuteSync. destruct (popen cmd) as [pipe|]; [|done].
  intros [= <-]. apply sync_loop_free.
Qed.

Lemma ExecuteSync_result_has_no_NUL_witness :
  ExecuteSync Demo.popen "cat blob" = Returned [x61] ∧ NUL ∉ [x61].
Proof.
  split; [reflexivity|].
  apply (ExecuteSync_result_has_no_NUL Demo.popen "cat blob" [x61]).
  reflexivity.
Defined.

(** X3.  [ExecuteSync] adds nothing and reorders nothing: the string it
    returns is the child's output with some bytes left out, so it is never
    longer than that output. *)
Theorem ExecuteSync_result_sublist popen cmd pipe result :
  popen cmd = Some pipe →
  ExecuteSync popen cmd = Returned result →
  result `sublist_of` pipe ∧ length result ≤ length pipe.
Proof.
  intros Hspawn. unfold ExecuteSync. rewrite Hspawn. intros [= <-].
  pose proof (sync_loop_sublist pipe) as Hsub.
  split; [done|by apply sublist_length].
Qed.

Lemma ExecuteSync_result_sublist_witness :
  [x61] `sublist_of` Demo.blob ∧ length [x61] ≤ length Demo.blob.
Proof.
  apply (ExecuteSync_result_sublist Demo.popen "cat blob" Demo.blob [x61]).
  - reflexivity.
  - reflexivity.
Defined.

(** *** Output made of whole lines *)

(** A read of a stream that begins with whole lines does not look past
    them. *)
Lemma read_line_app_line a : ∀ room b,
  last a = Some newline →
  read_line room (a ++ b) = ((read_line room a).1, (read_line room a).2 ++ b).
Proof.
  induction a as [|c a IH]; intros room b Hlast; [done|].
  destruct room as [|room]; [done|]. cbn.
  destruct (decide (c = newline)); [done|].
  rewrite (IH room b) by (by apply (last_cons_Some_ne c)).
  by destruct (read_line room a).
Qed.

Lemma fgets_app_line n a b :
  last a = Some newline →
  fgets n (a ++ b) = (λ '(buffer, rest), (buffer, rest ++ b)) <$> fgets n a.
Proof.
  intros Hlast. destruct a as [|c a]; [done|].
  unfold fgets. rewrite <-app_comm_cons, app_comm_cons.
  rewrite (read_line_app_line (c :: a) (n - 1) b Hlast).
  by destruct (read_line (n - 1) (c :: a)).
Qed.

(** What a read leaves of whole lines is again whole lines. *)
Lemma fgets_rest_lines n a buffer rest :
  2 ≤ n →
  last a = Some newline →
  fgets n a = Some (buffer, rest) →
  rest = [] ∨ last rest = Some newline.
Proof.
  intros Hn Hlast Hread.
  apply fgets_Some in Hread as (line & _ & -> & _); [|done].
  rewrite last_app in Hlast. destruct (last rest) as [y|] eqn:Hrest.
  - right. congruence.
  - left. by apply last_None.
Qed.

Lemma sync_loop_lines a b :
  last a = Some newline →
  sync_loop (a ++ b) [] = sync_loop a [] ++ sync_loop b [].
Proof.
  remember (length a) as n eqn:Hn. revert a Hn.
  induction (lt_wf n) as [n _ IH]; intros a -> Hlast.
  rewrite (sync_loop_step (a ++ b)), (sync_loop_step a).
  rewrite (fgets_app_line buffer_size a b Hlast).
  destruct (fgets buffer_size a) as [[buffer rest]|] eqn:Hread.
  - cbn. pose proof (fgets_progress buffer_size _ _ _ ltac:(cbv; lia) Hread) as Hlt.
    rewrite (sync_loop_acc (rest ++ b)), (sync_loop_acc rest). cbn.
    rewrite <-app_assoc. f_equal.
    destruct (fgets_rest_lines buffer_size a buffer rest ltac:(cbv; lia) Hlast Hread)
      as [->|Hrest].
    + by rewrite sync_loop_nil.
    + by apply (IH _ Hlt).
  - apply fgets_None in Hread as ->. done.
Qed.

(** X4.  Output is taken line by line: when a child writes what a first
    command writes, ending with a newline, and then what a second command
    writes, [ExecuteSync] returns what it returns for the first followed
    by what it returns for the second.  A NUL byte thus costs bytes of its
    own line only. *)
Theorem ExecuteSync_line_by_line popen cmd1 cmd2 cmd first second result1 result2 :
  popen cmd1 = Some first →
  popen cmd2 = Some second →
  popen cmd = Some (first ++ second) →
  last first = Some newline →
  ExecuteSync popen cmd1 = Returned result1 →
  ExecuteSync popen cmd2 = Returned result2 →
  ExecuteSync popen cmd = Returned (result1 ++ result2).
Proof.
  intros Hfirst Hsecond Hboth Hlast. unfold ExecuteSync.
  rewrite Hfirst, Hsecond, Hboth. intros [= <-] [= <-].
  by rewrite sync_loop_lines.
Qed.

Lemma ExecuteSync_line_by_line_witness :
  ExecuteSync Host.popen "cat blob; echo hello" = Returned ([x61] ++ Demo.hello).
Proof.
  apply (ExecuteSync_line_by_line Host.popen "cat blob" "echo hello" "cat blob; echo hello"
           Demo.blob Demo.hello [x61] Demo.hello).
  - reflexivity.
  - reflexivity.
  - reflexivity.
  - reflexivity.
  - reflexivity.
  - reflexivity.
Defined.

(** ** LoadFile and WriteFile *)

Lemma read_into_all f :
  read_into f (tellg_at_end f) (replicate (tellg_at_end f) x00) = bytes f.
Proof.
  unfold read_into, tellg_at_end. rewrite firstn_all.
  rewrite drop_ge by (by rewrite length_replicate). apply app_nil_r.
Qed.

Lemma at_0_Some (b : list byte) : b ≠ [] → at_0 b = Some ().
Proof. by destruct b. Qed.

Lemma at_0_inv (b : list byte) : at_0 b = Some () → b ≠ [].
Proof. by destruct b. Qed.

(** What a successful [WriteFile] leaves under the path. *)
Lemma WriteFile_true d path data d' :
  WriteFile d path data = Some (true, d') →
  data ≠ [] ∧
  d' = put path (File (take (room d path) data)
                   (match files d !! path with Some f => may_read f | None => new_may_read d end)
                   (match files d !! path with Some f => may_write f | None => new_may_write d end))
           d ∧
  match files d !! path with Some f => may_write f | None => may_create d path end = true.
Proof.
  unfold WriteFile, open_out.
  destruct (files d !! path) as [f|] eqn:Hf.
  - destruct (may_write f) eqn:Hw; [|done].
    destruct data as [|c data]; [done|]. cbn. intros [= <-].
    split; [done|]. split; [|done].
    unfold write_out, put. cbn. rewrite lookup_insert_eq. cbn.
    rewrite insert_insert_eq. rewrite Nat.mul_1_r, firstn_all. done.
  - destruct (may_create d path) eqn:Hc; [|done].
    destruct data as [|c data]; [done|]. cbn. intros [= <-].
    split; [done|]. split; [|done].
    unfold write_out, put. cbn. rewrite lookup_insert_eq. cbn.
    rewrite insert_insert_eq. rewrite Nat.mul_1_r, firstn_all. done.
Qed.

(** X5.  [LoadFile] of a file that exists, can be opened for reading and
    is not empty returns exactly the file's bytes. *)
Theorem LoadFile_returns_bytes d path f :
  files d !! path = Some f →
  may_read f = true →
  bytes f ≠ [] →
  LoadFile d path = Some (Returned (bytes f)).
Proof.
  intros Hf Hr Hne. unfold LoadFile. rewrite Hf, Hr.
  rewrite at_0_Some.
  - cbn. by rewrite read_into_all.
  - unfold tellg_at_end. destruct (bytes f); [done|]. done.
Qed.

Lemma LoadFile_returns_bytes_witness :
  LoadFile Host.disk0 "/etc/motd" = Some (Returned Demo.hello).
Proof.
  apply (LoadFile_returns_bytes Host.disk0 "/etc/motd" (File Demo.hello true false)).
  - reflexivity.
  - reflexivity.
  - discriminate.
Defined.

(** X6.  The exception [LoadFile] throws tells the caller what went wrong
    and with which path: a message [File does not exist: q] means the
    path is [q] and names no file, a message [Could not open file: q]
    means the path is [q] and names a file that cannot be opened for
    reading; no message fits both. *)
Theorem LoadFile_exception_tells_cause d path q :
  (LoadFile d path = Some (Thrown (FileSystemException ("File does not exist: " +:+ q))) →
   q = path ∧ files d !! path = None) ∧
  (LoadFile d path = Some (Thrown (FileSystemException ("Could not open file: " +:+ q))) →
   q = path ∧ ∃ f, files d !! path = Some f ∧ may_read f = false).
Proof.
  unfold LoadFile. split.
  - destruct (files d !! path) as [f|] eqn:Hf.
    + destruct (may_read f); [|discriminate].
      destruct (at_0 _); discriminate.
    + intros [= Hq]. done.
  - destruct (files d !! path) as [f|] eqn:Hf.
    + destruct (may_read f) eqn:Hr.
      * destruct (at_0 _); discriminate.
      * intros [= Hq]. split; [done|]. by exists f.
    + discriminate.
Qed.



(** A write the device takes two bytes of: [WriteFile] returns [true]
    all the same, and the file holds those two bytes. *)
Example WriteFile_short_write :
  (λ '(ok, d'), (ok, bytes <$> files d' !! "/tmp/empty"%string))
    <$> WriteFile Host.disk0 "/tmp/empty" Demo.hello
  = Some (true, Some [x68; x65]).
Proof. reflexivity. Qed.

(** X8.  [WriteFile] replaces, it does not append: two successful writes
    to one path leave the disk as the second write alone would have. *)
Theorem WriteFile_last_write_wins d path data1 data2 d1 d2 :
  WriteFile d path data1 = Some (true, d1) →
  WriteFile d1 path data2 = Some (true, d2) →
  WriteFile d path data2 = Some (true, d2).
Proof.
  intros H1 H2.
  apply WriteFile_true in H1 as (Hne1 & -> & Hopen1).
  apply WriteFile_true in H2 as (Hne2 & -> & Hopen2).
  cbn in Hopen2 |- *. rewrite lookup_insert_eq in Hopen2 |- *. cbn in Hopen2.
  unfold WriteFile, open_out.
  destruct (files d !! path) as [f|] eqn:Hf.
  - rewrite Hopen1. rewrite (at_0_Some data2 Hne2). cbn.
    unfold write_out, put. cbn. rewrite lookup_insert_eq. cbn.
    rewrite !insert_insert_eq, Nat.mul_1_r, firstn_all. done.
  - rewrite Hopen1. rewrite (at_0_Some data2 Hne2). cbn.
    unfold write_out, put. cbn. rewrite lookup_insert_eq. cbn.
    rewrite !insert_insert_eq, Nat.mul_1_r, firstn_all. done.
Qed.

Lemma WriteFile_last_write_wins_witness :
  ∃ d1 d2,
    WriteFile Host.disk0 "/tmp/out" Demo.hello = Some (true, d1) ∧
    WriteFile d1 "/tmp/out" [x61] = Some (true, d2) ∧
    WriteFile Host.disk0 "/tmp/out" [x61] = Some (true, d2).
Proof.
  eexists _, _. split; [reflexivity|]. split; [reflexivity|].
  eapply (WriteFile_last_write_wins Host.disk0 "/tmp/out" Demo.hello [x61]);
    reflexivity.
Defined.

(** X9.  [WriteFile] takes nothing off the disk: every file there before
    is there afterwards with the permissions it had; a file under another
    path is unchanged, and so is every file when the call returns
    [false]. *)
Theorem WriteFile_keeps_files d path data ok d' q f :
  WriteFile d path data = Some (ok, d') →
  files d !! q = Some f →
  ∃ f', files d' !! q = Some f' ∧
        may_read f' = may_read f ∧ may_write f' = may_write f ∧
        (q ≠ path → f' = f) ∧
        (ok = false → d' = d).
Proof.
  intros Hwrite Hq. destruct ok.
  - apply WriteFile_true in Hwrite as (_ & -> & _). cbn.
    destruct (decide (q = path)) as [->|Hne].
    + rewrite lookup_insert_eq, Hq. eexists. split; [done|]. cbn. done.
    + rewrite lookup_insert_ne by done. exists f. done.
  - assert (d' = d) as ->.
    { unfold WriteFile in Hwrite. destruct (open_out d path); [|congruence].
      destruct (at_0 data); cbn in Hwrite; congruence. }
    exists f. done.
Qed.

Lemma WriteFile_keeps_files_witness :
  ∃ d' f', WriteFile Host.disk0 "/tmp/out" Demo.hello = Some (true, d') ∧
           files d' !! "/etc/motd"%string = Some f' ∧
           may_read f' = true ∧ may_write f' = false ∧
           ("/etc/motd"%string ≠ "/tmp/out"%string → f' = File Demo.hello true false) ∧
           (true = false → d' = Host.disk0).
Proof.
  destruct (WriteFile_keeps_files Host.disk0 "/tmp/out" Demo.hello true
              (put "/tmp/out" (File Demo.hello true true) Host.disk0)
              "/etc/motd" (File Demo.hello true false) eq_refl eq_refl) as [f' Hf'].
  eexists _, f'. split; [reflexivity|exact Hf'].
Defined.

Lemma LoadFile_exception_tells_cause_witness :
  "/etc/shadow"%string = "/etc/shadow"%string ∧
  ∃ f, files Host.disk0 !! "/etc/shadow"%string = Some f ∧ may_read f = false.
Proof.
  apply (proj2 (LoadFile_exception_tells_cause Host.disk0 "/etc/shadow" "/etc/shadow")).
  reflexivity.
Defined.

(** ** The background threads under any schedule *)

Section Schedules.

Variable popen : string → option (list byte).

Implicit Types (w : world) (t : task) (tid : nat) (sched : list nat).

Lemma alter_set_pc_same tid (ts : list task) t :
  ts !! tid = Some t → alter (set_pc (state t)) tid ts = ts.
Proof.
  intros Ht. rewrite <-(list_alter_id id ts tid) at 2 by done.
  apply list_alter_ext; [|done]. intros t' Ht'. rewrite Ht in Ht'.
  injection Ht' as <-. by destruct t.
Qed.

(** What a step never touches, and how it touches the rest. *)
Lemma task_step_effect tid w w' :
  task_step popen tid w = Some w' →
  strings w' = strings w ∧ futures w' = futures w ∧
  (∃ s, tasks w' = alter (set_pc s) tid (tasks w) ∧
        ∀ t, tasks w !! tid = Some t →
             (∀ o, state t = Done o → s = Done o) ∧
             length (spawned w') + match s with Spawning => 1 | _ => 0 end
             = length (spawned w) + match state t with Spawning => 1 | _ => 0 end) ∧
  (∀ sink content, sinks w !! sink = Some content →
                   ∃ more, sinks w' !! sink = Some (content ++ more)).
Proof.
  unfold task_step. destruct (tasks w !! tid) as [t|] eqn:Ht; [|done]. cbn.
  destruct (state t) as [|pipe|o] eqn:Hst.
  - destruct (strings w !! cmd_ref t) as [cmd|]; [|done]. cbn.
    assert (∀ s, s ≠ Spawning →
              (∀ t0, Some t = Some t0 →
                 (∀ o, state t0 = Done o → s = Done o) ∧
                 length (spawned w ++ [cmd]) + match s with Spawning => 1 | _ => 0 end
                 = length (spawned w) + match state t0 with Spawning => 1 | _ => 0 end)) as Hacc.
    { intros s Hs t0 [= <-]. rewrite Hst. split; [done|].
      rewrite length_app. cbn. destruct s; [done|lia..]. }
    destruct (popen cmd) as [pipe|]; intros [= <-]; cbn.
    + split; [done|]. split; [done|]. split.
      * exists (Reading pipe). split; [done|]. by apply Hacc.
      * intros sink content ->. exists []. by rewrite app_nil_r.
    + split; [done|]. split; [done|]. split.
      * exists (Done (Failed popen_failed)). split; [done|]. by apply Hacc.
      * intros sink content ->. exists []. by rewrite app_nil_r.
  - destruct (fgets buffer_size pipe) as [[buffer pipe']|].
    + unfold write. destruct (sinks w !! ostr_ref t) as [content0|] eqn:Hsink; [|done].
      cbn. intros [= <-]. cbn.
      split; [done|]. split; [done|]. split.
      * exists (Reading pipe'). split; [done|]. intros t0 [= <-]. rewrite Hst. done.
      * intros sink content Hc. destruct (decide (sink = ostr_ref t)) as [->|Hne].
        -- rewrite lookup_insert_eq. exists (c_str buffer). congruence.
        -- rewrite lookup_insert_ne by done. exists []. by rewrite app_nil_r.
    + intros [= <-]. cbn. split; [done|]. split; [done|]. split.
      * exists (Done Completed). split; [done|]. intros t0 [= <-]. rewrite Hst. done.
      * intros sink content ->. exists []. by rewrite app_nil_r.
  - intros [= <-]. split; [done|]. split; [done|]. split.
    + exists (Done o). split.
      * rewrite <-Hst. symmetry. by apply alter_set_pc_same.
      * intros t0 [= <-]. rewrite Hst. split; [congruence|done].
    + intros sink content ->. exists []. by rewrite app_nil_r.
Qed.

Lemma unspawned_alter s tid : ∀ (ts : list task) t,
  ts !! tid = Some t →
  unspawned (alter (set_pc s) tid ts) + match state t with Spawning => 1 | _ => 0 end
  = unspawned ts + match s with Spawning => 1 | _ => 0 end.
Proof.
  induction tid as [|tid IH]; intros [|t0 ts] t Ht; try done.
  - injection Ht as ->. cbn. lia.
  - cbn in Ht. cbn. specialize (IH ts t Ht).
    change (list_alter (set_pc s) tid ts) with (alter (set_pc s) tid ts). lia.
Qed.

(** One step keeps the count of calls made and calls to come. *)
Lemma task_step_spawn_count tid w w' :
  task_step popen tid w = Some w' →
  length (spawned w') + unspawned (tasks w') = length (spawned w) + unspawned (tasks w).
Proof.
  intros Hstep.
  destruct (task_step_effect tid w w' Hstep) as (_ & _ & (s & -> & Hs) & _).
  unfold task_step in Hstep. destruct (tasks w !! tid) as [t|] eqn:Ht; [|done].
  destruct (Hs t eq_refl) as [_ Hlen].
  pose proof (unspawned_alter s tid (tasks w) t Ht). lia.
Qed.

(** One step keeps every thread's references, and a finished thread as
    it is. *)
Lemma task_step_keeps tid w w' i t :
  task_step popen tid w = Some w' →
  tasks w !! i = Some t →
  ∃ t', tasks w' !! i = Some t' ∧
        cmd_ref t' = cmd_ref t ∧ ostr_ref t' = ostr_ref t ∧
        (∀ o, state t = Done o → t' = t).
Proof.
  intros Hstep Hi.
  destruct (task_step_effect tid w w' Hstep) as (_ & _ & (s & -> & Hs) & _).
  destruct (decide (tid = i)) as [->|Hne].
  - exists (set_pc s t). split; [by apply lookup_alter_set_pc|].
    split; [done|]. split; [done|]. intros o Ho.
    destruct (Hs t Hi) as [Hdone _]. rewrite (Hdone o Ho). destruct t; cbn in *. by subst.
  - exists t. by rewrite list_lookup_alter_ne.
Qed.

End Schedules.

(** X10.  Whatever the order in which the background threads are stepped,
    they only ever append to the sinks: each sink's content afterwards
    begins with its content before.  They change no command string of a
    caller and no future, and the number of threads stays the same. *)
Theorem threads_only_append popen sched : ∀ w w',
  run_schedule popen sched w = Some w' →
  strings w' = strings w ∧ futures w' = futures w ∧
  length (tasks w') = length (tasks w) ∧
  ∀ sink content, sinks w !! sink = Some content →
                  ∃ more, sinks w' !! sink = Some (content ++ more).
Proof.
  induction sched as [|tid sched IH]; intros w w'.
  - intros [= <-]. repeat split. intros sink content ->. exists []. by rewrite app_nil_r.
  - rewrite run_schedule_cons.
    destruct (task_step popen tid w) as [w1|] eqn:Hstep; [|done]. cbn. intros Hrun.
    destruct (task_step_effect popen tid w w1 Hstep) as (Hs & Hf & (s & Ht & _) & Hsinks).
    destruct (IH w1 w' Hrun) as (Hs' & Hf' & Hlen' & Hsinks').
    split; [congruence|]. split; [congruence|]. split.
    + rewrite Hlen', Ht. apply length_alter.
    + intros sink content Hc. destruct (Hsinks sink content Hc) as [more1 Hc1].
      destruct (Hsinks' sink _ Hc1) as [more2 Hc2].
      exists (more1 ++ more2). by rewrite app_assoc.
Qed.

Lemma threads_only_append_witness :
  ∃ w',
    run_schedule Demo.popen [1; 0; 0; 1; 0]
      (ExecuteAsync 1 1 (ExecuteAsync 0 0 Demo.start).2).2 = Some w' ∧
    strings w' = strings (ExecuteAsync 1 1 (ExecuteAsync 0 0 Demo.start).2).2 ∧
    futures w' = futures (ExecuteAsync 1 1 (ExecuteAsync 0 0 Demo.start).2).2 ∧
    length (tasks w') = length (tasks (ExecuteAsync 1 1 (ExecuteAsync 0 0 Demo.start).2).2) ∧
    ∀ sink content,
      sinks (ExecuteAsync 1 1 (ExecuteAsync 0 0 Demo.start).2).2 !! sink = Some content →
      ∃ more, sinks w' !! sink = Some (content ++ more).
Proof.
  eexists. split; [reflexivity|].
  eapply (threads_only_append Demo.popen [1; 0; 0; 1; 0]).
  reflexivity.
Defined.

(** X11.  Under any schedule a thread keeps the command string and the
    sink it was started with, and a thread that has finished stays as it
    is: its outcome, once there, never changes. *)
Theorem thread_outcome_is_final popen sched : ∀ w w' tid t,
  run_schedule popen sched w = Some w' →
  tasks w !! tid = Some t →
  ∃ t', tasks w' !! tid = Some t' ∧
        cmd_ref t' = cmd_ref t ∧ ostr_ref t' = ostr_ref t ∧
        (∀ o, state t = Done o → t' = t).
Proof.
  induction sched as [|i sched IH]; intros w w' tid t.
  - intros [= <-] Ht. by exists t.
  - rewrite run_schedule_cons.
    destruct (task_step popen i w) as [w1|] eqn:Hstep; [|done]. cbn. intros Hrun Ht.
    destruct (task_step_keeps popen i w w1 tid t Hstep Ht) as (t1 & Ht1 & Hc1 & Ho1 & Hd1).
    destruct (IH w1 w' tid t1 Hrun Ht1) as (t' & Ht' & Hc' & Ho' & Hd').
    exists t'. split; [done|]. split; [congruence|]. split; [congruence|].
    intros o Ho. rewrite (Hd1 o Ho) in *. by apply (Hd' o).
Qed.

Lemma thread_outcome_is_final_witness :
  let w := World {[ 0 := "echo hello"%string ]} {[ 0 := [] ]}
                 [Task 0 0 (Done (Failed popen_failed)); Task 0 0 Spawning]
                 [Some 0; Some 1] ["nothing"%string] in
  ∃ w' t',
    run_schedule Demo.popen [0; 1; 0; 1; 1] w = Some w' ∧
    tasks w' !! 0 = Some t' ∧
    cmd_ref t' = 0 ∧ ostr_ref t' = 0 ∧
    (∀ o, Done (Failed popen_failed) = Done o → t' = Task 0 0 (Done (Failed popen_failed))).
Proof.
  intros w.
  destruct (run_schedule Demo.popen [0; 1; 0; 1; 1] w) as [w'|] eqn:Hrun;
    [|vm_compute in Hrun; discriminate Hrun].
  destruct (thread_outcome_is_final Demo.popen [0; 1; 0; 1; 1] w w' 0
              (Task 0 0 (Done (Failed popen_failed))) Hrun eq_refl) as [t' Ht'].
  exists w', t'. split; [reflexivity|exact Ht'].
Defined.

(** X12.  Under any schedule the calls of the spawn primitive made so far
    and the threads that have not yet made theirs add up to the same
    number: no thread spawns twice, and there are never more processes
    than calls of [ExecuteAsync]. *)
Theorem one_spawn_per_thread popen sched : ∀ w w',
  run_schedule popen sched w = Some w' →
  length (spawned w') + unspawned (tasks w') = length (spawned w) + unspawned (tasks w) ∧
  length (spawned w') ≤ length (spawned w) + length (tasks w).
Proof.
  assert (∀ ts, unspawned ts ≤ length ts) as Hbound.
  { induction ts as [|t ts IH]; cbn; [lia|]. destruct (state t); lia. }
  induction sched as [|tid sched IH]; intros w w'.
  - intros [= <-]. split; [done|]. lia.
  - rewrite run_schedule_cons.
    destruct (task_step popen tid w) as [w1|] eqn:Hstep; [|done]. cbn. intros Hrun.
    pose proof (task_step_spawn_count popen tid w w1 Hstep) as Hcount.
    destruct (IH w1 w' Hrun) as [Hcount' _].
    pose proof (Hbound (tasks w)). split; lia.
Qed.

Lemma one_spawn_per_thread_witness :
  ∃ w',
    run_schedule Demo.popen [1; 0; 0; 1; 0; 1; 1]
      (ExecuteAsync 1 1 (ExecuteAsync 0 0 Demo.start).2).2 = Some w' ∧
    length (spawned w') + unspawned (tasks w')
    = length (spawned (ExecuteAsync 1 1 (ExecuteAsync 0 0 Demo.start).2).2)
      + unspawned (tasks (ExecuteAsync 1 1 (ExecuteAsync 0 0 Demo.start).2).2) ∧
    length (spawned w')
    ≤ length (spawned (ExecuteAsync 1 1 (ExecuteAsync 0 0 Demo.start).2).2)
      + length (tasks (ExecuteAsync 1 1 (ExecuteAsync 0 0 Demo.start).2).2).
Proof.
  eexists. split; [reflexivity|].
  eapply (one_spawn_per_thread Demo.popen [1; 0; 0; 1; 0; 1; 1]).
  reflexivity.
Defined.

(** A thread stepped on its own stays on its way. *)
Lemma run_self popen tid ostr o total n : ∀ w,
  runs popen tid ostr o total w →
  ∃ w', run_schedule popen (replicate n tid) w = Some w' ∧
        runs popen tid ostr o total w' ∧ futures w' = futures w.
Proof.
  induction n as [|n IH]; intros w Hruns; [by exists w|].
  cbn [replicate]. rewrite run_schedule_cons.
  destruct (step_runs popen tid ostr o total w Hruns) as (w1 & -> & Hruns1 & _ & Hfut & _).
  cbn. destruct (IH w1 Hruns1) as (w' & Hrun & Hruns' & Hfut').
  exists w'. split; [done|]. split; [done|congruence].
Qed.

(** X13.  It does not matter when the handle is awaited.  However many
    steps the background thread has taken when [get] is called, [get]
    ends as [ExecuteSync] does on the same command, returning once the
    sink holds its former content followed by the string [ExecuteSync]
    returns, or throwing the exception [ExecuteSync] throws. *)
Theorem get_at_any_time popen w cmd ostr c content n :
  strings w !! cmd = Some c →
  sinks w !! ostr = Some content →
  ∃ w1 w2,
    run_schedule popen (replicate n (length (tasks w))) (ExecuteAsync cmd ostr w).2 = Some w1 ∧
    match ExecuteSync popen c with
    | Returned result =>
        get popen (length (futures w)) w1 = Some (Returned (), w2) ∧
        sinks w2 !! ostr = Some (content ++ result)
    | Thrown e =>
        get popen (length (futures w)) w1 = Some (Thrown e, w2) ∧
        sinks w2 !! ostr = Some content
    end.
Proof.
  intros Hcmd Hsink.
  pose proof (runs_launched popen (length (tasks w)) cmd ostr c content
                (launched cmd ostr w) (lookup_snoc _ _) Hcmd Hsink) as Hruns.
  destruct (run_self popen _ _ _ _ n _ Hruns) as (w1 & Hrun & Hruns1 & Hfut).
  destruct (get_runs popen (length (futures w)) (length (tasks w)) ostr
              (alone popen c content).1 (alone popen c content).2 w1)
    as (w2 & Hget & Hout & _); [|done|].
  { rewrite Hfut. apply lookup_snoc. }
  exists w1, w2. split; [done|].
  unfold ExecuteSync. unfold alone in Hget, Hout.
  destruct (popen c) as [pipe|]; cbn in Hget, Hout; done.
Qed.

Lemma get_at_any_time_witness :
  ∃ w1 w2,
    run_schedule Demo.popen (replicate 1 (length (tasks Demo.start)))
                 (ExecuteAsync 1 1 Demo.start).2 = Some w1 ∧
    match ExecuteSync Demo.popen "cat blob" with
    | Returned result =>
        get Demo.popen (length (futures Demo.start)) w1 = Some (Returned (), w2) ∧
        sinks w2 !! 1 = Some ([] ++ result)
    | Thrown e =>
        get Demo.popen (length (futures Demo.start)) w1 = Some (Thrown e, w2) ∧
        sinks w2 !! 1 = Some []
    end.
Proof.
  apply (get_at_any_time Demo.popen Demo.start 1 1 "cat blob" [] 1).
  - reflexivity.
  - reflexivity.
Defined.

(** ** More on FindExecutableInPath *)

Lemma first_existing_cases file_exists paths p :
  first_existing file_exists paths = Returned p →
  p = ""%string ∨ (file_exists p = Returned true ∧ p ∈ paths).
Proof.
  induction paths as [|p0 paths IH]; cbn; [intros [= <-]; by left|].
  destruct (file_exists p0) as [[|]|e] eqn:Hp0.
  - intros [= <-]. right. split; [done|apply list_elem_of_here].
  - intros Hp. destruct (IH Hp) as [->|[H1 H2]]; [by left|].
    right. split; [done|by apply list_elem_of_further].
  - done.
Qed.

(** X14.  A path that [FindExecutableInPath] returns, unless it is the
    empty one, exists, and it is one of the two paths tried in some
    directory of PATH. *)
Theorem FindExecutableInPath_result_exists
    file_exists append replace_extension os executable PATH p :
  FindExecutableInPath file_exists append replace_extension os executable (Some PATH)
    = Some (Returned p) →
  p ≠ ""%string →
  file_exists p = Returned true ∧
  ∃ dir, dir ∈ tokens os PATH ∧
         (p = append dir executable ∨
          p = replace_extension (append dir executable) ".exe").
Proof.
  unfold FindExecutableInPath. cbn [mbind option_bind].
  rewrite scan_first_existing. intros [= Hscan] Hne.
  destruct (first_existing_cases file_exists _ p Hscan) as [Hempty|[Hexists Hin]]; [done|].
  split; [done|]. by apply elem_of_candidates in Hin.
Qed.

Lemma FindExecutableInPath_result_exists_witness :
  Returned (Demo.file_exists "/opt/tools/foo") = Returned true ∧
  ∃ dir, dir ∈ tokens Posix "/opt/tools:/usr/bin" ∧
         ("/opt/tools/foo"%string = PosixPath.append dir "foo" ∨
          "/opt/tools/foo"%string
          = PosixPath.replace_extension (PosixPath.append dir "foo") ".exe").
Proof.
  apply (FindExecutableInPath_result_exists
           (λ p, Returned (Demo.file_exists p)) PosixPath.append PosixPath.replace_extension
           Posix "foo" "/opt/tools:/usr/bin" "/opt/tools/foo").
  - reflexivity.
  - discriminate.
Defined.

(** *** The directories of PATH *)

(** What one [std::getline] takes: a token free of the delimiter, which
    is either all that was left or is followed by the delimiter. *)
Lemma read_token_spec d s :
  (d ∉ list_ascii_of_string (read_token d s).1) ∧
  ((s = (read_token d s).1 ∧ (read_token d s).2 = ""%string) ∨
   s = ((read_token d s).1 +:+ String d (read_token d s).2)%string).
Proof.
  induction s as [|c s [IH1 IH2]]; cbn.
  - split; [apply not_elem_of_nil|by left].
  - destruct (decide (c = d)) as [->|Hc]; cbn.
    + split; [apply not_elem_of_nil|by right].
    + destruct (read_token d s) as [token rest]; cbn in *. split.
      * apply not_elem_of_cons. split; [congruence|done].
      * destruct IH2 as [[-> ->]| ->]; [by left|by right].
Qed.

Lemma tokens_nonempty os s : s ≠ ""%string → tokens os s ≠ [].
Proof.
  intros Hs. rewrite tokens_step. destruct s as [|c s]; [done|].
  cbn. by destruct (if decide (c = delim os) then _ else _).
Qed.

Lemma concat_cons sep t ts :
  ts ≠ [] → String.concat sep (t :: ts) = (t +:+ sep +:+ String.concat sep ts)%string.
Proof. by destruct ts. Qed.

Lemma append_assoc (a b c : string) : ((a +:+ b) +:+ c = a +:+ b +:+ c)%string.
Proof.
  induction a as [|x a IH]; [done|].
  change (String x ((a +:+ b) +:+ c) = String x (a +:+ b +:+ c)). by rewrite IH.
Qed.

(** X15.  Cutting PATH into directories loses nothing: no directory holds
    the delimiter, and the directories joined by the delimiter give PATH
    back, up to one delimiter that ended it. *)
Theorem tokens_round_trip os PATH :
  Forall (λ dir, delim os ∉ list_ascii_of_string dir) (tokens os PATH) ∧
  (PATH = String.concat (String (delim os) "") (tokens os PATH) ∨
   PATH = (String.concat (String (delim os) "") (tokens os PATH)
           +:+ String (delim os) "")%string).
Proof.
  remember (String.length PATH) as n eqn:Hn. revert PATH Hn.
  induction (lt_wf n) as [n _ IH]; intros PATH ->.
  rewrite tokens_step.
  destruct (getline (delim os) PATH) as [[token rest]|] eqn:Hread.
  - pose proof (getline_progress _ _ _ _ Hread) as Hlt.
    destruct (IH _ Hlt rest eq_refl) as [IHfree IHjoin].
    assert (read_token (delim os) PATH = (token, rest)) as Htoken.
    { destruct PATH; [done|]. unfold getline in Hread. congruence. }
    pose proof (read_token_spec (delim os) PATH) as [Hfree Hsplit].
    rewrite Htoken in Hfree, Hsplit. cbn [fst snd] in *.
    split; [by constructor|].
    destruct Hsplit as [[Hs ->]|Hs].
    + left. rewrite tokens_step. done.
    + destruct rest as [|c' rest'].
      * right. rewrite tokens_step. cbn. done.
      * rewrite concat_cons by (by apply tokens_nonempty).
        rewrite Hs. change (String (delim os) (String c' rest'))
          with (String (delim os) "" +:+ String c' rest')%string.
        destruct IHjoin as [IHjoin|IHjoin].
        -- left. by rewrite <-IHjoin.
        -- right. rewrite !append_assoc. by rewrite <-IHjoin.
  - destruct PATH; [|done]. split; [constructor|by left].
Qed.

(** *** An executable given with its directory *)

Lemma getline_Some d s : s ≠ ""%string → ∃ token rest, getline d s = Some (token, rest).
Proof.
  destruct s as [|c s]; [done|]. intros _. unfold getline.
  destruct (read_token d (String c s)) as [token rest]. by exists token, rest.
Qed.

(** X16.  With POSIX paths, an executable given as an absolute path is
    not searched for in the directories of PATH at all: if PATH is not
    empty and the file exists, the call returns that very path, on either
    choice of delimiter. *)
Theorem FindExecutableInPath_absolute file_exists os name PATH :
  PATH ≠ ""%string →
  file_exists (String "/" name) = Returned true →
  FindExecutableInPath file_exists PosixPath.append PosixPath.replace_extension
    os (String "/" name) (Some PATH)
  = Some (Returned (String "/" name)).
Proof.
  intros HPATH Hexists. unfold FindExecutableInPath. cbn [mbind option_bind].
  rewrite scan_step.
  destruct (getline_Some (delim os) PATH HPATH) as (token & rest & ->).
  change (PosixPath.append token (String "/" name)) with (String "/" name).
  by rewrite Hexists.
Qed.

Lemma FindExecutableInPath_absolute_witness :
  FindExecutableInPath Host.file_exists PosixPath.append PosixPath.replace_extension
    Posix "/bin/sh" (Some "/root/bin:/usr/bin"%string)
  = Some (Returned "/bin/sh"%string).
Proof.
  apply (FindExecutableInPath_absolute Host.file_exists Posix "bin/sh" "/root/bin:/usr/bin").
  - discriminate.
  - reflexivity.
Defined.

(** ** The sink's lifetime *)

Lemma task_step_reading_dead popen tid w t pipe :
  tasks w !! tid = Some t → state t = Reading pipe → pipe ≠ [] →
  sinks w !! ostr_ref t = None →
  task_step popen tid w = None.
Proof.
  intros Ht Hst Hpipe Hsink. unfold task_step. rewrite Ht. cbn. rewrite Hst.
  destruct (fgets buffer_size pipe) as [[buffer pipe']|] eqn:Hread.
  - unfold write. by rewrite Hsink.
  - by apply fgets_None in Hread.
Qed.

Lemma task_step_reading_end popen tid w t :
  tasks w !! tid = Some t → state t = Reading [] →
  task_step popen tid w = Some (set_state tid (Done Completed) w).
Proof. intros Ht Hst. unfold task_step. rewrite Ht. cbn. by rewrite Hst. Qed.

Lemma join_without_sink popen tid w t c :
  tasks w !! tid = Some t → state t = Spawning →
  strings w !! cmd_ref t = Some c →
  sinks w !! ostr_ref t = None →
  match popen c with
  | None => join popen tid w = Some (set_state tid (Done (Failed popen_failed)) (log_spawn c w))
  | Some [] =>
      join popen tid w
      = Some (set_state tid (Done Completed) (set_state tid (Reading []) (log_spawn c w)))
  | Some (_ :: _) => join popen tid w = None
  end.
Proof.
  intros Ht Hst Hcmd Hsink.
  destruct (popen c) as [[|b pipe]|] eqn:Hspawn.
  - unfold join, steps_left. rewrite Ht, Hst, Hcmd. cbn [mbind option_bind]. rewrite Hspawn.
    change (replicate (2 + length []) tid) with [tid; tid].
    rewrite run_schedule_cons, (task_step_spawn popen _ _ _ c Ht Hst Hcmd), Hspawn.
    cbn [mbind option_bind]. rewrite run_schedule_cons.
    rewrite (task_step_reading_end popen tid _ (set_pc (Reading []) t));
      [done|by apply lookup_alter_set_pc|done].
  - unfold join, steps_left. rewrite Ht, Hst, Hcmd. cbn [mbind option_bind]. rewrite Hspawn.
    change (replicate (2 + length (b :: pipe)) tid)
      with (tid :: tid :: replicate (length (b :: pipe)) tid).
    rewrite run_schedule_cons, (task_step_spawn popen _ _ _ c Ht Hst Hcmd), Hspawn.
    cbn [mbind option_bind]. rewrite run_schedule_cons.
    rewrite (task_step_reading_dead popen tid _ (set_pc (Reading (b :: pipe)) t) (b :: pipe));
      [done|by apply lookup_alter_set_pc|done|done|done].
  - by apply (join_spawn_failed popen tid w t c).
Qed.

(** X17.  The stream too is held by reference, and it is used at every
    read that succeeds.  If the caller destroys the stream before the
    thread has started reading, awaiting the handle has a defined result
    exactly when the thread never writes: when the spawn fails ([get]
    throws) or the child writes nothing ([get] returns); once the child
    writes a single byte the operation has no defined result. *)
Theorem ExecuteAsync_sink_by_reference popen w cmd ostr c :
  strings w !! cmd = Some c →
  let w1 := destroy_sink ostr (ExecuteAsync cmd ostr w).2 in
  match popen c with
  | None => ∃ w2, get popen (length (futures w)) w1 = Some (Thrown popen_failed, w2)
  | Some [] => ∃ w2, get popen (length (futures w)) w1 = Some (Returned (), w2)
  | Some (_ :: _) => get popen (length (futures w)) w1 = None
  end.
Proof.
  intros Hcmd w1.
  assert (tasks w1 !! length (tasks w) = Some (Task cmd ostr Spawning)) as Ht
    by apply lookup_snoc.
  pose proof (join_without_sink popen (length (tasks w)) w1 (Task cmd ostr Spawning) c
                Ht eq_refl Hcmd (lookup_delete_eq _ _)) as Hjoin.
  unfold get. cbn [futures w1 destroy_sink ExecuteAsync snd]. rewrite lookup_snoc.
  cbn [mbind option_bind].
  destruct (popen c) as [[|b pipe]|]; rewrite Hjoin; [| done |].
  - cbn [mbind option_bind tasks set_state].
    rewrite alter_set_pc, (lookup_alter_set_pc _ _ _ _ Ht). cbn. by eexists.
  - cbn [mbind option_bind tasks set_state].
    rewrite (lookup_alter_set_pc _ _ _ _ Ht). cbn. by eexists.
Qed.

Lemma ExecuteAsync_sink_by_reference_witness :
  get Demo.popen (length (futures Demo.start))
      (destroy_sink 0 (ExecuteAsync 0 0 Demo.start).2) = None.
Proof.
  apply (ExecuteAsync_sink_by_reference Demo.popen Demo.start 0 0 "echo hello").
  reflexivity.
Defined.
